(** * The mpv client API core: event ring, reply reservation, registry

    A shallow embedding of [player/client.c] (the client API implementation)
    together with the declarations of [player/client_api.h].

    Layout of the development:
    - machine integers, error codes, event kinds, formats ([client_api.h]);
    - the event record, the byte ring carrying whole records, the handle;
    - the operations on one handle ([reserve_reply], [send_event],
      [send_reply], [mpv_wait_event], ...), as functions on the handle state;
    - the registry and the request runners, as functions on [MPContext];
    - the steps a handle and a registry go through in their life;
    - the properties, and the scenarios they are exercised on.

    Conventions.  A C [int], [int64_t] or [uint64_t] is a [Z]; where the
    source relies on wrap-around it is written out ([to_uint64], [to_int64]).
    A [struct mpv_handle *] is an address, a [nat]; the registry's array of
    pointers is the list of the addresses with the handles they point to.
    [abort()] and a failed [assert] end the computation: they are the
    [Abort] and [AssertFail] results of [outcome]; the use of a handle
    pointer that is not live is [Undefined].  Locks are not modelled: every
    function below runs its critical section atomically, which is what the
    lock provides. *)

From stdpp Require Import base list strings pretty numbers relations.
From Stdlib Require Import ZArith QArith Lia.

Local Open Scope Z_scope.

(** ** Machine integers *)

Definition UINT64_MAX : Z := 2 ^ 64 - 1.

Definition to_uint64 (z : Z) : Z := z mod 2 ^ 64.

(** Conversion of a [uint64_t] value to [int64_t] (two's complement). *)
Definition to_int64 (z : Z) : Z :=
  let m := z mod 2 ^ 64 in
  if m <? 2 ^ 63 then m else m - 2 ^ 64.

(** ** [client_api.h]: error codes, formats, event kinds *)

Definition MPV_ERROR_SUCCESS : Z := 0.
Definition MPV_ERROR_EVENT_BUFFER_FULL : Z := -1.
Definition MPV_ERROR_INVALID_PARAMETER : Z := -2.
Definition MPV_ERROR_NOMEM : Z := -3.
Definition MPV_ERROR_NOT_FOUND : Z := -4.
Definition MPV_ERROR_PROPERTY : Z := -5.
Definition MPV_ERROR_PROPERTY_UNAVAILABLE : Z := -6.
Definition MPV_ERROR_UNINITIALIZED : Z := -7.

Definition MPV_FORMAT_NONE : Z := 0.
Definition MPV_FORMAT_STRING : Z := 1.
Definition MPV_FORMAT_OSD_STRING : Z := 2.

Definition MPV_EVENT_NONE : Z := 0.
Definition MPV_EVENT_OK : Z := 1.
Definition MPV_EVENT_ERROR : Z := 2.
Definition MPV_EVENT_SHUTDOWN : Z := 3.
Definition MPV_EVENT_LOG_MESSAGE : Z := 4.
Definition MPV_EVENT_TICK : Z := 5.
Definition MPV_EVENT_PROPERTY : Z := 6.
Definition MPV_EVENT_START_FILE : Z := 7.
Definition MPV_EVENT_END_FILE : Z := 8.
Definition MPV_EVENT_PLAYBACK_START : Z := 9.
Definition MPV_EVENT_TRACKS_CHANGED : Z := 10.
Definition MPV_EVENT_TRACK_SWITCHED : Z := 11.
Definition MPV_EVENT_IDLE : Z := 12.
Definition MPV_EVENT_PAUSE : Z := 13.
Definition MPV_EVENT_UNPAUSE : Z := 14.
Definition MPV_EVENT_SCRIPT_INPUT_DISPATCH : Z := 15.

Definition event_table : list string :=
  [ "none"; "ok"; "error"; "shutdown"; "log-message"; "tick"; "property";
    "start-file"; "end-file"; "playback-start"; "tracks-changed";
    "track-switched"; "idle"; "pause"; "unpause"; "script-input-dispatch" ].

Definition mpv_event_name (event : Z) : option string :=
  if (event <? 0) || (Z.of_nat (length event_table) <=? event) then None
  else event_table !! Z.to_nat event.

Definition err_table : list string :=
  [ "success"; "request buffer full"; "invalid parameter";
    "memory allocation failed"; "not found"; "error accessing property";
    "property unavailable"; "core not initialized" ].

(** [error] is an [int]; the negation overflows for [INT_MIN] only. *)
Definition mpv_error_string (error : Z) : string :=
  let error := - error in
  let error := if error <? 0 then 0 else error in
  let name :=
    if error <? Z.of_nat (length err_table)
    then err_table !! Z.to_nat error
    else None in
  match name with
  | Some name => name
  | None => "unknown error"
  end.

(** ** Results of code that can [abort()] or fail an [assert] *)

Inductive outcome (A : Type) : Type :=
  | Done (a : A)
  | Abort
  | AssertFail
  | Undefined.

Arguments Done {A} a.
Arguments Abort {A}.
Arguments AssertFail {A}.
Arguments Undefined {A}.

#[global] Instance outcome_ret : MRet outcome := fun A a => Done a.

#[global] Instance outcome_bind : MBind outcome := fun A B k m =>
  match m with
  | Done a => k a
  | Abort => Abort
  | AssertFail => AssertFail
  | Undefined => Undefined
  end.

(** ** Event records and their payloads *)

Record mpv_event_property := mk_event_property {
  prop_name : string;
  prop_format : Z;
  prop_data : option string;
}.

Record mpv_event_log_message := mk_event_log_message {
  msg_prefix : string;
  msg_level : option string;
  msg_text : string;
}.

(** The [void *data] of an event.  A pointer handed in by the engine is kept
    as an address; a payload built by this file is kept as the struct it
    points to. *)
Inductive payload : Type :=
  | NULL
  | engine_data (addr : Z)
  | property_data (p : mpv_event_property)
  | log_message_data (m : mpv_event_log_message).

Record mpv_event_data := mk_event {
  in_reply_to : Z;
  event_id : Z;
  error : Z;
  data : payload;
}.

(** [(mpv_event_data){0}] *)
Definition zero_event : mpv_event_data := mk_event 0 0 0 NULL.

(** ** The log tap: [struct mp_log_buffer], a queue of entries *)

Record mp_log_buffer_entry := mk_log_entry {
  entry_prefix : string;
  entry_level : nat;
  entry_text : string;
}.

Definition mp_log_buffer := list mp_log_buffer_entry.

Definition mp_msg_log_buffer_read (b : mp_log_buffer)
  : option (mp_log_buffer_entry * mp_log_buffer) :=
  match b with
  | [] => None
  | m :: b' => Some (m, b')
  end.

(** ** What a handle does that is visible outside it

    The condition-variable signals, wakeup callbacks, error log lines and
    [talloc_free] calls issued on behalf of one handle, oldest first. *)
Inductive effect : Type :=
  | Signal
  | WakeupCb (cb d : Z)
  | LogErr (line : string)
  | Freed (p : payload).

(** ** The ring: [struct mp_ring] *)

(** Modelled from the spec: the byte-ring primitive of [misc/ring.h]
    ([new(capacity)], [available()], [buffered()], [write(bytes,n)],
    [read(bytes,n)], returning the bytes actually written or read).  The ring
    has [ring_size] bytes; the records it holds are kept as a list, oldest
    first, each occupying [sizeof_event] bytes.  A short write or read is
    followed by [abort()] at every call site, so the bytes of a torn record
    are not represented. *)
Record mp_ring := mk_ring {
  ring_size : Z;
  ring_buf : list mpv_event_data;
}.

(** ** The engine side: collaborators outside [client.c] *)

(** The engine's own state and the functions of other files that the request
    runners call.  [mp_property_do name action arg has_mpctx st] gives the
    error code, the string stored through the data pointer, and the engine
    state; [has_mpctx] tells whether the [mpctx] argument was non-NULL. *)
Record collaborators := mk_collaborators {
  engine_state : Type;
  mp_cmd : Type;
  run_command : engine_state -> mp_cmd -> engine_state;
  mp_property_do :
    string -> Z -> option string -> bool -> engine_state ->
    Z * option string * engine_state;
  mp_input_parse_cmd_strv : list string -> string -> option mp_cmd;
  mp_input_parse_cmd : string -> string -> option mp_cmd;
  (* options/m_property.h *)
  M_PROPERTY_OK : Z;
  M_PROPERTY_ERROR : Z;
  M_PROPERTY_UNAVAILABLE : Z;
  M_PROPERTY_NOT_IMPLEMENTED : Z;
  M_PROPERTY_UNKNOWN : Z;
  M_PROPERTY_GET_STRING : Z;
  M_PROPERTY_PRINT : Z;
}.

(** ** An instance to run the model on

    The LP64 size of an event record (8 + 4 + 4 + 8 bytes), the level names
    of [common/msg.c], and an engine with no state of its own, whose
    commands are their argument lists and whose properties all read
    "value". *)
Module Sample.

Definition sizeof_event : positive := 24.

Definition mp_log_levels (n : nat) : option string :=
  [ "fatal"; "error"; "warn"; "info"; "status"; "v"; "debug"; "trace" ] !! n.

Definition MSGL_MAX : nat := 7.

Definition idle_engine : collaborators :=
  {| engine_state := unit;
     mp_cmd := list string;
     run_command := fun st _ => st;
     mp_property_do := fun _ _ _ _ st => (1, Some "value", st);
     mp_input_parse_cmd_strv := fun args _ =>
       match args with [] => None | _ => Some args end;
     mp_input_parse_cmd := fun args _ => Some [args];
     M_PROPERTY_OK := 1;
     M_PROPERTY_ERROR := 0;
     M_PROPERTY_UNAVAILABLE := -1;
     M_PROPERTY_NOT_IMPLEMENTED := -2;
     M_PROPERTY_UNKNOWN := -3;
     M_PROPERTY_GET_STRING := 9;
     M_PROPERTY_PRINT := 1 |}.

End Sample.

Section Client.

(** [sizeof(struct mpv_event_data)], which depends on the ABI. *)
Variable sizeof_event : positive.

(** [mp_log_levels] and [MSGL_MAX] of [common/msg.h]. *)
Variable mp_log_levels : nat -> option string.
Variable MSGL_MAX : nat.

Definition esize : Z := Z.pos sizeof_event.

#[local] Arguments esize : simpl never.

Definition mp_ring_new (size : Z) : mp_ring := mk_ring size [].

Definition mp_ring_buffered (r : mp_ring) : Z :=
  esize * Z.of_nat (length (ring_buf r)).

Definition mp_ring_available (r : mp_ring) : Z :=
  ring_size r - mp_ring_buffered r.

(** Writes one record; returns the bytes written and the ring. *)
Definition mp_ring_write (r : mp_ring) (e : mpv_event_data) : Z * mp_ring :=
  if esize <=? mp_ring_available r
  then (esize, mk_ring (ring_size r) (ring_buf r ++ [e]))
  else (Z.max 0 (mp_ring_available r), r).

(** Reads one record into [dst]; returns the bytes read, the record now in
    the destination and the ring. *)
Definition mp_ring_read (r : mp_ring) (dst : mpv_event_data)
  : Z * mpv_event_data * mp_ring :=
  match ring_buf r with
  | [] => (0, dst, r)
  | e :: rest => (esize, e, mk_ring (ring_size r) rest)
  end.

(** ** The handle: [struct mpv_handle] *)

Record mpv_handle := mk_handle {
  name : string;
  (* -- not thread-safe *)
  cur_event : mpv_event_data;
  cur_event_children : list payload;   (* talloc children of cur_event *)
  (* -- protected by lock *)
  alloc_reply_id : Z;
  event_mask : Z;
  queued_wakeup : bool;
  shutdown : bool;
  choke_warning : bool;
  wakeup_cb : Z;
  wakeup_cb_ctx : Z;
  events : mp_ring;
  max_events : Z;
  reserved_events : Z;
  messages : option mp_log_buffer;
  messages_level : Z;
  (* -- history of the effects issued for this handle *)
  effects : list effect;
}.

Definition set_cur_event (e : mpv_event_data) (c : list payload)
    (h : mpv_handle) : mpv_handle :=
  mk_handle (name h) e c (alloc_reply_id h) (event_mask h) (queued_wakeup h)
    (shutdown h) (choke_warning h) (wakeup_cb h) (wakeup_cb_ctx h) (events h)
    (max_events h) (reserved_events h) (messages h) (messages_level h)
    (effects h).

Definition set_alloc_reply_id (v : Z) (h : mpv_handle) : mpv_handle :=
  mk_handle (name h) (cur_event h) (cur_event_children h) v (event_mask h)
    (queued_wakeup h) (shutdown h) (choke_warning h) (wakeup_cb h)
    (wakeup_cb_ctx h) (events h) (max_events h) (reserved_events h)
    (messages h) (messages_level h) (effects h).

Definition set_event_mask (v : Z) (h : mpv_handle) : mpv_handle :=
  mk_handle (name h) (cur_event h) (cur_event_children h) (alloc_reply_id h)
    v (queued_wakeup h) (shutdown h) (choke_warning h) (wakeup_cb h)
    (wakeup_cb_ctx h) (events h) (max_events h) (reserved_events h)
    (messages h) (messages_level h) (effects h).

Definition set_queued_wakeup (v : bool) (h : mpv_handle) : mpv_handle :=
  mk_handle (name h) (cur_event h) (cur_event_children h) (alloc_reply_id h)
    (event_mask h) v (shutdown h) (choke_warning h) (wakeup_cb h)
    (wakeup_cb_ctx h) (events h) (max_events h) (reserved_events h)
    (messages h) (messages_level h) (effects h).

Definition set_shutdown (v : bool) (h : mpv_handle) : mpv_handle :=
  mk_handle (name h) (cur_event h) (cur_event_children h) (alloc_reply_id h)
    (event_mask h) (queued_wakeup h) v (choke_warning h) (wakeup_cb h)
    (wakeup_cb_ctx h) (events h) (max_events h) (reserved_events h)
    (messages h) (messages_level h) (effects h).

Definition set_choke_warning (v : bool) (h : mpv_handle) : mpv_handle :=
  mk_handle (name h) (cur_event h) (cur_event_children h) (alloc_reply_id h)
    (event_mask h) (queued_wakeup h) (shutdown h) v (wakeup_cb h)
    (wakeup_cb_ctx h) (events h) (max_events h) (reserved_events h)
    (messages h) (messages_level h) (effects h).

Definition set_wakeup_cb (cb d : Z) (h : mpv_handle) : mpv_handle :=
  mk_handle (name h) (cur_event h) (cur_event_children h) (alloc_reply_id h)
    (event_mask h) (queued_wakeup h) (shutdown h) (choke_warning h) cb d
    (events h) (max_events h) (reserved_events h) (messages h)
    (messages_level h) (effects h).

Definition set_events (v : mp_ring) (h : mpv_handle) : mpv_handle :=
  mk_handle (name h) (cur_event h) (cur_event_children h) (alloc_reply_id h)
    (event_mask h) (queued_wakeup h) (shutdown h) (choke_warning h)
    (wakeup_cb h) (wakeup_cb_ctx h) v (max_events h) (reserved_events h)
    (messages h) (messages_level h) (effects h).

Definition set_reserved_events (v : Z) (h : mpv_handle) : mpv_handle :=
  mk_handle (name h) (cur_event h) (cur_event_children h) (alloc_reply_id h)
    (event_mask h) (queued_wakeup h) (shutdown h) (choke_warning h)
    (wakeup_cb h) (wakeup_cb_ctx h) (events h) (max_events h) v (messages h)
    (messages_level h) (effects h).

Definition set_messages (b : option mp_log_buffer) (lvl : Z)
    (h : mpv_handle) : mpv_handle :=
  mk_handle (name h) (cur_event h) (cur_event_children h) (alloc_reply_id h)
    (event_mask h) (queued_wakeup h) (shutdown h) (choke_warning h)
    (wakeup_cb h) (wakeup_cb_ctx h) (events h) (max_events h)
    (reserved_events h) b lvl (effects h).

Definition emit (e : list effect) (h : mpv_handle) : mpv_handle :=
  mk_handle (name h) (cur_event h) (cur_event_children h) (alloc_reply_id h)
    (event_mask h) (queued_wakeup h) (shutdown h) (choke_warning h)
    (wakeup_cb h) (wakeup_cb_ctx h) (events h) (max_events h)
    (reserved_events h) (messages h) (messages_level h) (effects h ++ e).

(** The handle [mp_new_client] builds for [unique_name]. *)
Definition new_handle (unique_name : string) : mpv_handle :=
  let num_events := 1000 in
  {| name := unique_name;
     cur_event := zero_event;
     cur_event_children := [];
     alloc_reply_id := 0;
     event_mask :=
       Z.land UINT64_MAX (Z.lxor UINT64_MAX (Z.shiftl 1 MPV_EVENT_TICK));
     queued_wakeup := false;
     shutdown := false;
     choke_warning := false;
     wakeup_cb := 0;
     wakeup_cb_ctx := 0;
     events := mp_ring_new (num_events * esize);
     max_events := num_events;
     reserved_events := 0;
     messages := None;
     messages_level := 0;
     effects := [] |}.

(** ** Operations on one handle *)

Definition wakeup_client (ctx : mpv_handle) : mpv_handle :=
  let ctx := emit [Signal] ctx in
  if wakeup_cb ctx =? 0 then ctx
  else emit [WakeupCb (wakeup_cb ctx) (wakeup_cb_ctx ctx)] ctx.

Definition mpv_set_wakeup_callback (ctx : mpv_handle) (cb d : Z)
  : mpv_handle :=
  set_wakeup_cb cb d ctx.

(** [ctx->event_mask & (1ULL << id)] is non-zero.  The shift is defined in C
    for [0 <= id < 64] only. *)
Definition mask_has (mask id : Z) : bool :=
  negb (Z.land mask (Z.shiftl 1 id) =? 0).

Definition reserve_reply (ctx : mpv_handle) : Z * mpv_handle :=
  let res := MPV_ERROR_EVENT_BUFFER_FULL in
  if reserved_events ctx <? max_events ctx then
    let ctx := set_reserved_events (reserved_events ctx + 1) ctx in
    let ctx := set_alloc_reply_id (to_uint64 (alloc_reply_id ctx + 1)) ctx in
    (to_int64 (alloc_reply_id ctx), ctx)
  else (res, ctx).

Definition too_many_events : string := "Too many events queued.".

Definition send_event (ctx : mpv_handle) (event : mpv_event_data)
  : outcome (Z * mpv_handle) :=
  if negb (mask_has (event_mask ctx) (event_id event)) then Done (0, ctx)
  else
    let num_events := mp_ring_available (events ctx) / esize in
    '(r, ctx) ←
      (if reserved_events ctx <? num_events then
         let '(r, ring) := mp_ring_write (events ctx) event in
         if negb (r =? esize) then Abort
         else Done (r, wakeup_client (set_events ring ctx))
       else Done (0, ctx));
    let ctx :=
      if (r =? 0) && negb (choke_warning ctx)
      then set_choke_warning true (emit [LogErr too_many_events] ctx)
      else ctx in
    Done (if r =? 0 then -1 else 0, ctx).

Definition send_reply (ctx : mpv_handle) (reply_id : Z)
    (event : mpv_event_data) : outcome mpv_handle :=
  if negb (0 <? reserved_events ctx) then AssertFail
  else
    let ctx := set_reserved_events (reserved_events ctx - 1) ctx in
    let '(r, ring) := mp_ring_write (events ctx) event in
    if negb (r =? esize) then Abort
    else Done (wakeup_client (set_events ring ctx)).

Definition send_error_reply (ctx : mpv_handle) (reply_id err : Z)
  : outcome mpv_handle :=
  let event := mk_event 0 MPV_EVENT_ERROR err NULL in
  send_reply ctx reply_id event.

Definition mp_client_status_reply (ctx : mpv_handle) (reply_id status : Z)
  : outcome mpv_handle :=
  if status <? 0 then send_error_reply ctx reply_id status
  else
    let reply := mk_event 0 MPV_EVENT_OK 0 NULL in
    send_reply ctx reply_id reply.

Definition mpv_request_event (ctx : mpv_handle) (event enable : Z)
  : Z * mpv_handle :=
  match mpv_event_name event with
  | None => (MPV_ERROR_INVALID_PARAMETER, ctx)
  | Some _ =>
    if (enable <? 0) || (1 <? enable) then (MPV_ERROR_INVALID_PARAMETER, ctx)
    else
      let bit := Z.shiftl 1 event in
      let mask :=
        if negb (enable =? 0) then Z.lor (event_mask ctx) bit
        else Z.land (event_mask ctx) (Z.lxor UINT64_MAX bit) in
      (0, set_event_mask mask ctx)
  end.

Definition mpv_wakeup (ctx : mpv_handle) : mpv_handle :=
  wakeup_client (set_queued_wakeup true ctx).

(** The level named [min_level]: the first [n <= MSGL_MAX] whose
    [mp_log_levels] entry is that name, or [-1]. *)
Fixpoint find_log_level (min_level : string) (n fuel : nat) : Z :=
  match fuel with
  | O => -1
  | S fuel' =>
    match mp_log_levels n with
    | Some l =>
      if String.eqb min_level l then Z.of_nat n
      else find_log_level min_level (S n) fuel'
    | None => find_log_level min_level (S n) fuel'
    end
  end.

Definition mpv_request_log_messages (ctx : mpv_handle) (min_level : string)
  : Z * mpv_handle :=
  let level := find_log_level min_level 0 (S MSGL_MAX) in
  if (level <? 0) && negb (String.eqb min_level "no")
  then (MPV_ERROR_INVALID_PARAMETER, ctx)
  else
    let ctx :=
      match messages ctx with
      | None => set_messages None (-1) ctx
      | Some _ => ctx
      end in
    let ctx :=
      if negb (messages_level ctx =? level) then
        (* mp_msg_log_buffer_new(global, 1000, level): an empty buffer *)
        set_messages (if 0 <=? level then Some [] else None) level ctx
      else ctx in
    (0, ctx).

(** *** [mpv_wait_event] *)

(** [talloc_steal(event, p)]: [p] becomes a child of the scratch event;
    stealing [NULL] does nothing. *)
Definition talloc_steal (children : list payload) (p : payload)
  : list payload :=
  match p with
  | NULL => children
  | _ => children ++ [p]
  end.

(** What one turn of the [while (1)] loop ends in: a [break], or the call to
    [pthread_cond_timedwait]. *)
Inductive loop_turn : Type :=
  | Break (ctx : mpv_handle)
  | TimedWait (ctx : mpv_handle).

Definition set_event_id (id : Z) (e : mpv_event_data) : mpv_event_data :=
  mk_event (in_reply_to e) id (error e) (data e).

Definition set_data (d : payload) (e : mpv_event_data) : mpv_event_data :=
  mk_event (in_reply_to e) (event_id e) (error e) d.

(** The checks after the ring and the shutdown flag. *)
Definition wait_turn_tail (ctx : mpv_handle) (timeout : Q) : loop_turn :=
  if queued_wakeup ctx then Break ctx
  else if Qle_bool timeout 0 then Break ctx
  else TimedWait ctx.

Definition wait_turn (ctx : mpv_handle) (timeout : Q) : outcome loop_turn :=
  if negb (mp_ring_buffered (events ctx) =? 0) then
    let '(r, event, ring) := mp_ring_read (events ctx) (cur_event ctx) in
    if negb (r =? esize) then Abort
    else
      Done (Break (set_cur_event event
                     (talloc_steal (cur_event_children ctx) (data event))
                     (set_events ring ctx)))
  else if shutdown ctx then
    Done (Break (set_cur_event (set_event_id MPV_EVENT_SHUTDOWN (cur_event ctx))
                   (cur_event_children ctx) ctx))
  else
    match messages ctx with
    | Some buf =>
      match mp_msg_log_buffer_read buf with
      | Some (msg, buf') =>
        let cmsg :=
          log_message_data
            (mk_event_log_message (entry_prefix msg)
               (mp_log_levels (entry_level msg)) (entry_text msg)) in
        let event :=
          set_data cmsg (set_event_id MPV_EVENT_LOG_MESSAGE (cur_event ctx)) in
        Done (Break (set_cur_event event (cur_event_children ctx ++ [cmsg])
                       (set_messages (Some buf') (messages_level ctx) ctx)))
      | None => Done (wait_turn_tail ctx timeout)
      end
    | None => Done (wait_turn_tail ctx timeout)
    end.

(** The loop.  While the caller sleeps in [pthread_cond_timedwait] the lock
    is released and other threads act on the handle; [env] lists what they
    have done to it at each successive wake-up (the identity for a wake-up
    by the deadline).  [None]: the caller is still asleep when [env] is
    used up. *)
Fixpoint wait_loop (env : list (mpv_handle -> mpv_handle))
    (ctx : mpv_handle) (timeout : Q) : outcome (option mpv_handle) :=
  match wait_turn ctx timeout with
  | Done (Break ctx') => Done (Some ctx')
  | Done (TimedWait ctx') =>
    match env with
    | [] => Done None
    | f :: env' => wait_loop env' (f ctx') timeout
    end
  | Abort => Abort
  | AssertFail => AssertFail
  | Undefined => Undefined
  end.

(** The part before the loop: the scratch event is zeroed and its children
    are freed. *)
Definition wait_enter (ctx : mpv_handle) : mpv_handle :=
  set_cur_event zero_event []
    (emit (map Freed (cur_event_children ctx)) ctx).

(** The part after the loop. *)
Definition wait_leave (r : option mpv_handle)
  : outcome (option (mpv_event_data * mpv_handle)) :=
  match r with
  | None => Done None
  | Some ctx =>
    let ctx := set_queued_wakeup false ctx in
    Done (Some (cur_event ctx, ctx))
  end.

(** Returns the event (the contents of [ctx->cur_event]) and the handle, or
    [None] while the call has not returned. *)
Definition mpv_wait_event (env : list (mpv_handle -> mpv_handle))
    (ctx : mpv_handle) (timeout : Q)
  : outcome (option (mpv_event_data * mpv_handle)) :=
  r ← wait_loop env (wait_enter ctx) timeout;
  wait_leave r.

(** ** The engine behind the registry *)

Variable E : collaborators.

(** ** Requests handed to the dispatch queue *)

Record cmd_request := mk_cmd_request {
  cmd_cmd : mp_cmd E;
  cmd_status : Z;
  cmd_reply_ctx : option nat;
  cmd_reply_id : Z;
}.

Record setproperty_request := mk_setproperty_request {
  sp_mpctx : bool;              (* req->mpctx is non-NULL *)
  sp_name : string;
  sp_cmd : Z;
  sp_data : option string;
  sp_status : Z;
  sp_reply_ctx : option nat;
  sp_reply_id : Z;
}.

Record getproperty_request := mk_getproperty_request {
  gp_name : string;
  gp_format : Z;
  gp_data : bool;               (* req->data, the caller's result pointer *)
  gp_status : Z;
  gp_reply_ctx : option nat;
  gp_reply_id : Z;
}.

(** A queued callback with its argument. *)
Inductive dispatch_item : Type :=
  | item_cmd_fn (req : cmd_request)
  | item_setproperty_fn (req : setproperty_request)
  | item_getproperty_fn (req : getproperty_request).

(** ** [struct MPContext] with its [struct mp_client_api] *)

Record MPContext := mk_mpctx {
  initialized : bool;
  engine : engine_state E;
  clients : list (nat * mpv_handle);   (* clients[0 .. num_clients) *)
  next_client : nat;                   (* the next address talloc gives out *)
  dispatch : list dispatch_item;
  freed : list payload;                (* talloc_free calls on event data *)
}.

Definition set_engine (v : engine_state E) (m : MPContext) : MPContext :=
  mk_mpctx (initialized m) v (clients m) (next_client m) (dispatch m)
    (freed m).

Definition set_clients (v : list (nat * mpv_handle)) (m : MPContext)
  : MPContext :=
  mk_mpctx (initialized m) (engine m) v (next_client m) (dispatch m)
    (freed m).

Definition set_dispatch (v : list dispatch_item) (m : MPContext)
  : MPContext :=
  mk_mpctx (initialized m) (engine m) (clients m) (next_client m) v
    (freed m).

Definition talloc_free (p : payload) (m : MPContext) : MPContext :=
  mk_mpctx (initialized m) (engine m) (clients m) (next_client m)
    (dispatch m) (freed m ++ [p]).

Definition num_clients (m : MPContext) : nat := length (clients m).

(** [*ctx] *)
Fixpoint handle_at (cs : list (nat * mpv_handle)) (ctx : nat)
  : option mpv_handle :=
  match cs with
  | [] => None
  | (p, h) :: cs' => if Nat.eqb p ctx then Some h else handle_at cs' ctx
  end.

(** [*ctx = h] *)
Fixpoint store_at (cs : list (nat * mpv_handle)) (ctx : nat)
    (h : mpv_handle) : list (nat * mpv_handle) :=
  match cs with
  | [] => []
  | (p, h0) :: cs' =>
    if Nat.eqb p ctx then (p, h) :: cs' else (p, h0) :: store_at cs' ctx h
  end.

Definition deref (m : MPContext) (ctx : nat) : outcome mpv_handle :=
  match handle_at (clients m) ctx with
  | Some h => Done h
  | None => Undefined
  end.

Definition store (m : MPContext) (ctx : nat) (h : mpv_handle) : MPContext :=
  set_clients (store_at (clients m) ctx h) m.

(** ** The registry *)

Fixpoint find_client (cs : list (nat * mpv_handle)) (nm : string)
  : option nat :=
  match cs with
  | [] => None
  | (p, h) :: cs' =>
    if String.eqb (name h) nm then Some p else find_client cs' nm
  end.

(** The loop [for (n = 2; n < 1000; n++)] of [mp_new_client], entered at
    [n] with [fuel] turns left; [talloc_asprintf(NULL, "%s%d", name, n)] is
    [nm +:+ pretty n]. *)
Fixpoint unique_name_loop (cs : list (nat * mpv_handle)) (nm : string)
    (n fuel : nat) : option string :=
  match fuel with
  | O => None
  | S fuel' =>
    let unique_name := nm +:+ pretty n in
    match find_client cs unique_name with
    | None => Some unique_name
    | Some _ => unique_name_loop cs nm (S n) fuel'
    end
  end.

(** Returns the new client's address, [None] for NULL. *)
Definition mp_new_client (m : MPContext) (nm : string)
  : option nat * MPContext :=
  let unique_name :=
    match find_client (clients m) nm with
    | Some _ => unique_name_loop (clients m) nm 2 998
    | None => Some nm
    end in
  match unique_name with
  | None => (None, m)
  | Some unique_name =>
    let client := next_client m in
    (Some client,
     mk_mpctx (initialized m) (engine m)
       (clients m ++ [(client, new_handle unique_name)])
       (S client) (dispatch m) (freed m))
  end.

Definition mpv_client_name (m : MPContext) (ctx : nat) : outcome string :=
  h ← deref m ctx; Done (name h).

Definition mp_clients_num (m : MPContext) : nat := num_clients m.

Fixpoint remove_client (cs : list (nat * mpv_handle)) (ctx : nat)
  : option (mpv_handle * list (nat * mpv_handle)) :=
  match cs with
  | [] => None
  | (p, h) :: cs' =>
    if Nat.eqb p ctx then Some (h, cs')
    else
      match remove_client cs' ctx with
      | Some (h', cs'') => Some (h', (p, h) :: cs'')
      | None => None
      end
  end.

Definition mpv_destroy (m : MPContext) (ctx : nat) : outcome MPContext :=
  match remove_client (clients m) ctx with
  | Some (h, cs) =>
    (* the buffered events are read one by one and their data freed *)
    Done (mk_mpctx (initialized m) (engine m) cs (next_client m)
            (dispatch m) (freed m ++ map data (ring_buf (events h))))
  | None => AssertFail
  end.

(** The loop of [mp_client_broadcast_event] over the clients array. *)
Fixpoint broadcast_loop (cs : list (nat * mpv_handle))
    (event_data : mpv_event_data) : outcome (list (nat * mpv_handle)) :=
  match cs with
  | [] => Done []
  | (p, h) :: cs' =>
    '(_, h') ← send_event h event_data;
    cs'' ← broadcast_loop cs' event_data;
    Done ((p, h') :: cs'')
  end.

Definition mp_client_broadcast_event (m : MPContext) (event : Z)
    (d : payload) : outcome MPContext :=
  let event_data := mk_event 0 event 0 d in
  cs ← broadcast_loop (clients m) event_data;
  Done (talloc_free d (set_clients cs m)).

Definition mp_client_send_event (m : MPContext) (client_name : string)
    (event : Z) (d : payload) : outcome (Z * MPContext) :=
  let event_data := mk_event 0 event 0 d in
  match find_client (clients m) client_name with
  | Some ctx =>
    h ← deref m ctx;
    '(r, h') ← send_event h event_data;
    Done (r, store m ctx h')
  | None => Done (-1, talloc_free d m)
  end.

(** ** The dispatch bridge and the request runners *)

Definition translate_property_error (errc : Z) : Z :=
  if errc =? M_PROPERTY_OK E then 0
  else if errc =? M_PROPERTY_ERROR E then MPV_ERROR_PROPERTY
  else if errc =? M_PROPERTY_UNAVAILABLE E then MPV_ERROR_PROPERTY_UNAVAILABLE
  else if errc =? M_PROPERTY_NOT_IMPLEMENTED E then MPV_ERROR_PROPERTY
  else if errc =? M_PROPERTY_UNKNOWN E then MPV_ERROR_NOT_FOUND
  else MPV_ERROR_PROPERTY.

Definition property_format_to_cmd (format : Z) : Z :=
  if format =? MPV_FORMAT_STRING then M_PROPERTY_GET_STRING E
  else if format =? MPV_FORMAT_OSD_STRING then M_PROPERTY_PRINT E
  else MPV_ERROR_INVALID_PARAMETER.

(** [f] applied to the handle [ctx] points to. *)
Definition on_client (m : MPContext) (ctx : nat)
    (f : mpv_handle -> outcome mpv_handle) : outcome MPContext :=
  h ← deref m ctx;
  h' ← f h;
  Done (store m ctx h').

Definition cmd_fn (m : MPContext) (req : cmd_request)
  : outcome (MPContext * cmd_request) :=
  let m := set_engine (run_command E (engine m) (cmd_cmd req)) m in
  let req :=
    mk_cmd_request (cmd_cmd req) 0 (cmd_reply_ctx req) (cmd_reply_id req) in
  match cmd_reply_ctx req with
  | Some ctx =>
    m ← on_client m ctx (fun h =>
           mp_client_status_reply h (cmd_reply_id req) (cmd_status req));
    Done (m, req)
  | None => Done (m, req)
  end.

Definition setproperty_fn (m : MPContext) (req : setproperty_request)
  : outcome (MPContext * setproperty_request) :=
  let '(err, _, st) :=
    mp_property_do E (sp_name req) (sp_cmd req) (sp_data req) (sp_mpctx req)
      (engine m) in
  let m := set_engine st m in
  let req :=
    mk_setproperty_request (sp_mpctx req) (sp_name req) (sp_cmd req)
      (sp_data req) (translate_property_error err) (sp_reply_ctx req)
      (sp_reply_id req) in
  match sp_reply_ctx req with
  | Some ctx =>
    m ← on_client m ctx (fun h =>
           mp_client_status_reply h (sp_reply_id req) (sp_status req));
    Done (m, req)
  | None => Done (m, req)
  end.

(** Also returns what was stored through [req->data], when that pointer is
    set. *)
Definition getproperty_fn (m : MPContext) (req : getproperty_request)
  : outcome (MPContext * getproperty_request * option string) :=
  let cmd := property_format_to_cmd (gp_format req) in
  let '(status, out, m) :=
    if cmd <? 0 then (cmd, None, m)
    else
      let '(err, out, st) :=
        mp_property_do E (gp_name req) cmd None true (engine m) in
      (translate_property_error err, out, set_engine st m) in
  (* data = req->data ? req->data : &xdata *)
  let xdata := if gp_data req then None else out in
  let result := if gp_data req then out else None in
  let req :=
    mk_getproperty_request (gp_name req) (gp_format req) (gp_data req)
      status (gp_reply_ctx req) (gp_reply_id req) in
  match gp_reply_ctx req with
  | Some ctx =>
    m ← on_client m ctx (fun h =>
           if gp_status req <? 0
           then send_error_reply h (gp_reply_id req) (gp_status req)
           else
             let prop :=
               mk_event_property (gp_name req) (gp_format req) xdata in
             let reply :=
               mk_event 0 MPV_EVENT_PROPERTY 0 (property_data prop) in
             send_reply h (gp_reply_id req) reply);
    Done (m, req, result)
  | None => Done (m, req, result)
  end.

Definition run_item (m : MPContext) (it : dispatch_item)
  : outcome MPContext :=
  match it with
  | item_cmd_fn req => '(m, _) ← cmd_fn m req; Done m
  | item_setproperty_fn req => '(m, _) ← setproperty_fn m req; Done m
  | item_getproperty_fn req => '(m, _, _) ← getproperty_fn m req; Done m
  end.

Fixpoint process_items (items : list dispatch_item) (m : MPContext)
  : outcome MPContext :=
  match items with
  | [] => Done m
  | it :: rest => m' ← run_item m it; process_items rest m'
  end.

(** Modelled from the spec: the dispatch bridge of [misc/dispatch.h].  The
    engine thread runs the queued callbacks in the order they were
    submitted and frees the argument of each after it returns. *)
Definition mp_dispatch_queue_process (m : MPContext) : outcome MPContext :=
  process_items (dispatch m) (set_dispatch [] m).

(** Modelled from the spec: [mp_dispatch_run] blocks the caller until the
    engine thread has run [fn] once, after what was submitted before it. *)
Definition run_locked {A} (m : MPContext)
    (fn : MPContext -> outcome (MPContext * A)) : outcome (MPContext * A) :=
  m ← mp_dispatch_queue_process m;
  fn m.

(** [mk reply_id] is the callback with its request once [*req_reply_id] is
    written. *)
Definition run_async (m : MPContext) (ctx : nat)
    (mk : Z -> dispatch_item) : outcome (Z * MPContext) :=
  h ← deref m ctx;
  let '(reply_id, h) := reserve_reply h in
  let m := store m ctx h in
  if reply_id <? 0 then Done (reply_id, m)
  else Done (reply_id, set_dispatch (dispatch m ++ [mk reply_id]) m).

Definition run_client_command (m : MPContext) (ctx : nat)
    (cmd : option (mp_cmd E)) : outcome (Z * MPContext) :=
  if negb (initialized m) then Done (MPV_ERROR_UNINITIALIZED, m)
  else
    match cmd with
    | None => Done (MPV_ERROR_INVALID_PARAMETER, m)
    | Some cmd =>
      let req := mk_cmd_request cmd 0 None 0 in
      '(m, req) ← run_locked m (fun m => cmd_fn m req);
      Done (cmd_status req, m)
    end.

Definition mpv_command (m : MPContext) (ctx : nat) (args : list string)
  : outcome (Z * MPContext) :=
  h ← deref m ctx;
  run_client_command m ctx (mp_input_parse_cmd_strv E args (name h)).

Definition mpv_command_string (m : MPContext) (ctx : nat) (args : string)
  : outcome (Z * MPContext) :=
  h ← deref m ctx;
  run_client_command m ctx (mp_input_parse_cmd E args (name h)).

Definition mpv_command_async (m : MPContext) (ctx : nat)
    (args : list string) : outcome (Z * MPContext) :=
  _ ← deref m ctx;
  if negb (initialized m) then Done (MPV_ERROR_UNINITIALIZED, m)
  else
    match mp_input_parse_cmd_strv E args "<client>" with
    | None => Done (MPV_ERROR_INVALID_PARAMETER, m)
    | Some cmd =>
      run_async m ctx (fun id =>
        item_cmd_fn (mk_cmd_request cmd 0 (Some ctx) id))
    end.

Definition mpv_set_property (m : MPContext) (ctx : nat) (nm : string)
    (format : Z) (d : option string) : outcome (Z * MPContext) :=
  _ ← deref m ctx;
  if negb (initialized m) then Done (MPV_ERROR_UNINITIALIZED, m)
  else if negb (format =? MPV_FORMAT_STRING)
  then Done (MPV_ERROR_INVALID_PARAMETER, m)
  else
    let req := mk_setproperty_request false nm 0 d 0 None 0 in
    '(m, req) ← run_locked m (fun m => setproperty_fn m req);
    Done (sp_status req, m).

Definition mpv_set_property_string (m : MPContext) (ctx : nat)
    (nm d : string) : outcome (Z * MPContext) :=
  mpv_set_property m ctx nm MPV_FORMAT_STRING (Some d).

Definition mpv_set_property_async (m : MPContext) (ctx : nat) (nm : string)
    (format : Z) (d : option string) : outcome (Z * MPContext) :=
  _ ← deref m ctx;
  if negb (initialized m) then Done (MPV_ERROR_UNINITIALIZED, m)
  else if negb (format =? MPV_FORMAT_STRING)
  then Done (MPV_ERROR_INVALID_PARAMETER, m)
  else
    run_async m ctx (fun id =>
      item_setproperty_fn
        (mk_setproperty_request true nm 0 d 0 (Some ctx) id)).

(** Returns the status and what was stored through [data]. *)
Definition mpv_get_property (m : MPContext) (ctx : nat) (nm : string)
    (format : Z) (d : bool) : outcome (Z * option string * MPContext) :=
  _ ← deref m ctx;
  if negb (initialized m) then Done (MPV_ERROR_UNINITIALIZED, None, m)
  else
    let req := mk_getproperty_request nm format d 0 None 0 in
    '(m, (req, out)) ←
      run_locked m (fun m =>
        '(m, req, out) ← getproperty_fn m req; Done (m, (req, out)));
    Done (gp_status req, out, m).

Definition mpv_get_property_async (m : MPContext) (ctx : nat) (nm : string)
    (format : Z) : outcome (Z * MPContext) :=
  _ ← deref m ctx;
  if negb (initialized m) then Done (MPV_ERROR_UNINITIALIZED, m)
  else
    run_async m ctx (fun id =>
      item_getproperty_fn
        (mk_getproperty_request nm format false 0 (Some ctx) id)).

(** [mpv_wait_event] on the handle [ctx] points to. *)
Definition wait_event_on (m : MPContext) (ctx : nat)
    (env : list (mpv_handle -> mpv_handle)) (timeout : Q)
  : outcome (option (mpv_event_data * MPContext)) :=
  h ← deref m ctx;
  r ← mpv_wait_event env h timeout;
  match r with
  | None => Done None
  | Some (ev, h') => Done (Some (ev, store m ctx h'))
  end.

(** *** [mpv_set_option] *)

(** [m_config_set_option0] of [options/m_config.h], acting on the engine's
    configuration, and the error codes of [options/m_option.h]. *)
Variable m_config_set_option0 :
  engine_state E -> string -> option string -> Z * engine_state E.
Variable M_OPT_MISSING_PARAM : Z.
Variable M_OPT_INVALID : Z.
Variable M_OPT_OUT_OF_RANGE : Z.
Variable M_OPT_UNKNOWN : Z.

Definition mpv_set_option (m : MPContext) (ctx : nat) (nm : string)
    (format : Z) (d : option string) : outcome (Z * MPContext) :=
  _ ← deref m ctx;
  if initialized m then
    (* prop holds "options/<name>" and is not used *)
    let prop := "options/" +:+ nm in
    mpv_set_property m ctx nm format d
  else if negb (format =? MPV_FORMAT_STRING)
  then Done (MPV_ERROR_INVALID_PARAMETER, m)
  else
    let value := d in
    let '(err, st) := m_config_set_option0 (engine m) nm value in
    let m := set_engine st m in
    if (err =? M_OPT_MISSING_PARAM) || (err =? M_OPT_INVALID)
       || (err =? M_OPT_OUT_OF_RANGE)
    then Done (MPV_ERROR_INVALID_PARAMETER, m)
    else if err =? M_OPT_UNKNOWN then Done (MPV_ERROR_NOT_FOUND, m)
    else if 0 <=? err then Done (0, m)
    else Done (MPV_ERROR_INVALID_PARAMETER, m).

Definition mpv_set_option_string (m : MPContext) (ctx : nat)
    (nm d : string) : outcome (Z * MPContext) :=
  mpv_set_option m ctx nm MPV_FORMAT_STRING (Some d).

(** ** The life of a handle

    One atomic step on a handle: a critical section of this file, or an
    action of engine code outside it (the shutdown flag raised, a line added
    to the log tap).  A call of [mpv_wait_event] is its entry, then loop
    turns, between which other steps may happen. *)
Inductive handle_step : mpv_handle -> mpv_handle -> Prop :=
  | step_reserve_reply h :
      handle_step h (reserve_reply h).2
  | step_send_event h e r h' :
      send_event h e = Done (r, h') -> handle_step h h'
  | step_send_reply h id e h' :
      send_reply h id e = Done h' -> handle_step h h'
  | step_request_event h event enable :
      handle_step h (mpv_request_event h event enable).2
  | step_request_log_messages h lvl :
      handle_step h (mpv_request_log_messages h lvl).2
  | step_wakeup h :
      handle_step h (mpv_wakeup h)
  | step_set_wakeup_callback h cb d :
      handle_step h (mpv_set_wakeup_callback h cb d)
  | step_wait_enter h :
      handle_step h (wait_enter h)
  | step_wait_break h timeout h' :
      wait_turn h timeout = Done (Break h') ->
      handle_step h (set_queued_wakeup false h')
  | step_wait_sleep h timeout h' :
      wait_turn h timeout = Done (TimedWait h') -> handle_step h h'
  | step_engine_shutdown h :
      handle_step h (set_shutdown true h)
  | step_engine_log h buf entry :
      messages h = Some buf ->
      handle_step h (set_messages (Some (buf ++ [entry])) (messages_level h) h).

(** The states a client created under the name [nm] can be in. *)
Definition reachable (nm : string) (h : mpv_handle) : Prop :=
  rtc handle_step (new_handle nm) h.

(** The number of "Too many events queued." lines among some effects. *)
Fixpoint choke_lines (l : list effect) : nat :=
  match l with
  | [] => O
  | LogErr line :: l' =>
    if String.eqb line too_many_events then S (choke_lines l')
    else choke_lines l'
  | _ :: l' => choke_lines l'
  end.

Fixpoint signals (l : list effect) : nat :=
  match l with
  | [] => O
  | Signal :: l' => S (signals l')
  | _ :: l' => signals l'
  end.

(** The turns that end the loop, by the source that applied. *)
Inductive wait_source (h : mpv_handle) (timeout : Q) : mpv_handle -> Prop :=
  | from_ring e rest :
      ring_buf (events h) = e :: rest ->
      wait_source h timeout
        (set_cur_event e (talloc_steal (cur_event_children h) (data e))
           (set_events (mk_ring (ring_size (events h)) rest) h))
  | from_shutdown :
      ring_buf (events h) = [] ->
      shutdown h = true ->
      wait_source h timeout
        (set_cur_event (set_event_id MPV_EVENT_SHUTDOWN (cur_event h))
           (cur_event_children h) h)
  | from_log msg buf :
      ring_buf (events h) = [] ->
      shutdown h = false ->
      messages h = Some (msg :: buf) ->
      let cmsg :=
        log_message_data
          (mk_event_log_message (entry_prefix msg)
             (mp_log_levels (entry_level msg)) (entry_text msg)) in
      wait_source h timeout
        (set_cur_event
           (set_data cmsg
              (set_event_id MPV_EVENT_LOG_MESSAGE (cur_event h)))
           (cur_event_children h ++ [cmsg])
           (set_messages (Some buf) (messages_level h) h))
  | from_wakeup :
      ring_buf (events h) = [] ->
      shutdown h = false ->
      (messages h = None \/ messages h = Some []) ->
      queued_wakeup h = true ->
      wait_source h timeout h
  | from_timeout :
      ring_buf (events h) = [] ->
      shutdown h = false ->
      (messages h = None \/ messages h = Some []) ->
      queued_wakeup h = false ->
      Qle_bool timeout 0 = true ->
      wait_source h timeout h.

(** The reservation count moves by at most one, within its bounds. *)
Definition reservation_move (h h' : mpv_handle) : Prop :=
  reserved_events h' = reserved_events h \/
  (reserved_events h < max_events h /\
   reserved_events h' = reserved_events h + 1) \/
  (0 < reserved_events h /\ reserved_events h' = reserved_events h - 1).

(** The mask gate of kind [K] on a handle: the bit of [K] is clear and no
    record of kind [K] is buffered. *)
Definition gate_inv (K : Z) (h : mpv_handle) : Prop :=
  mask_has (event_mask h) K = false /\
  Forall (fun e => event_id e <> K) (ring_buf (events h)).

(** What other threads do to the handle while its owner sleeps keeps the
    gate, and leaves the scratch event to the owner. *)
Definition keeps_gate (K : Z) (f : mpv_handle -> mpv_handle) : Prop :=
  forall x, gate_inv K x -> gate_inv K (f x) /\ cur_event (f x) = cur_event x.

(** The mask gate as the specification words it: a client whose mask bit for
    kind [K] is 0 never gets an event of kind [K] from [mpv_wait_event]. *)
Definition mask_gate_claim : Prop :=
  forall K nm h env timeout ev h',
    reachable nm h ->
    mask_has (event_mask h) K = false ->
    mpv_wait_event env h timeout = Done (Some (ev, h')) ->
    event_id ev <> K.

(** The names of the registered clients, in the order of the array. *)
Definition client_names (cs : list (nat * mpv_handle)) : list string :=
  map (fun c => name c.2) cs.

(** The context after a client named [unique_name] is appended. *)
Definition register (unique_name : string) (m : MPContext) : MPContext :=
  mk_mpctx (initialized m) (engine m)
    (clients m ++ [(next_client m, new_handle unique_name)])
    (S (next_client m)) (dispatch m) (freed m).

(** The payloads freed among some effects, oldest first. *)
Fixpoint frees (l : list effect) : list payload :=
  match l with
  | [] => []
  | Freed p :: l' => p :: frees l'
  | _ :: l' => frees l'
  end.

(** What each registered client has freed. *)
Definition client_frees (cs : list (nat * mpv_handle))
  : list (list payload) :=
  map (fun c => frees (effects c.2)) cs.

(** ** The life of the registry

    One step on the context: an entry point of this file that returns, a
    step on one of the registered handles, or engine code changing what is
    its own. *)
Inductive registry_step : MPContext -> MPContext -> Prop :=
  | reg_new_client m nm :
      registry_step m (mp_new_client m nm).2
  | reg_destroy m ctx m' :
      mpv_destroy m ctx = Done m' -> registry_step m m'
  | reg_broadcast_event m event d m' :
      mp_client_broadcast_event m event d = Done m' -> registry_step m m'
  | reg_send_event m nm event d r m' :
      mp_client_send_event m nm event d = Done (r, m') -> registry_step m m'
  | reg_command m ctx args r m' :
      mpv_command m ctx args = Done (r, m') -> registry_step m m'
  | reg_command_string m ctx args r m' :
      mpv_command_string m ctx args = Done (r, m') -> registry_step m m'
  | reg_command_async m ctx args r m' :
      mpv_command_async m ctx args = Done (r, m') -> registry_step m m'
  | reg_set_property m ctx nm format d r m' :
      mpv_set_property m ctx nm format d = Done (r, m') ->
      registry_step m m'
  | reg_set_property_async m ctx nm format d r m' :
      mpv_set_property_async m ctx nm format d = Done (r, m') ->
      registry_step m m'
  | reg_get_property m ctx nm format d r out m' :
      mpv_get_property m ctx nm format d = Done (r, out, m') ->
      registry_step m m'
  | reg_get_property_async m ctx nm format r m' :
      mpv_get_property_async m ctx nm format = Done (r, m') ->
      registry_step m m'
  | reg_queue_process m m' :
      mp_dispatch_queue_process m = Done m' -> registry_step m m'
  | reg_handle_step m ctx h h' :
      handle_at (clients m) ctx = Some h ->
      handle_step h h' ->
      registry_step m (store m ctx h')
  | reg_engine m init st :
      registry_step m
        (mk_mpctx init st (clients m) (next_client m) (dispatch m) (freed m)).

(** The handle after one more record is in its ring. *)
Definition ring_push (e : mpv_event_data) (h : mpv_handle) : mpv_handle :=
  set_events (mk_ring (ring_size (events h)) (ring_buf (events h) ++ [e])) h.

(** The handle after the latched warning of [send_event]. *)
Definition choke_warn (h : mpv_handle) : mpv_handle :=
  if choke_warning h then h
  else set_choke_warning true (emit [LogErr too_many_events] h).

(** The reservations of a handle are covered by free slots of its ring. *)
Definition slots_ok (h : mpv_handle) : Prop :=
  reserved_events h <= mp_ring_available (events h) / esize.

(** The handle after [n] events [e] were written to its ring one by one. *)
Definition filled (n : nat) (e : mpv_event_data) (h : mpv_handle)
  : mpv_handle :=
  Nat.iter n (fun h => wakeup_client (ring_push e h)) h.

(** Other threads leave the scratch event and what was freed alone. *)
Definition keeps_scratch (f : mpv_handle -> mpv_handle) : Prop :=
  forall x, cur_event (f x) = cur_event x /\
            cur_event_children (f x) = cur_event_children x /\
            frees (effects (f x)) = frees (effects x).

(** *** The event loop of [client_example.c]

    [while (1) { event = mpv_wait_event(ctx, 10000); printf("event: %s\n",
    mpv_event_name(event->event_id)); if (event->event_id ==
    MPV_EVENT_SHUTDOWN) break; }], run for at most [fuel] turns while no
    other thread touches the handle.  The result is the lines printed and
    the handle when the loop was left, [None] while it is still running;
    printing a NULL name is [Undefined]. *)
Definition printed_line (nm : string) : string :=
  "event: " +:+ nm +:+ String (Ascii.ascii_of_nat 10) EmptyString.

Fixpoint example_event_loop (fuel : nat) (ctx : mpv_handle)
  : outcome (option (list string * mpv_handle)) :=
  match fuel with
  | O => Done None
  | S fuel' =>
    r ← mpv_wait_event [] ctx (inject_Z 10000);
    match r with
    | None => Done None
    | Some (event, ctx) =>
      match mpv_event_name (event_id event) with
      | None => Undefined
      | Some nm =>
        if event_id event =? MPV_EVENT_SHUTDOWN
        then Done (Some ([printed_line nm], ctx))
        else
          r' ← example_event_loop fuel' ctx;
          match r' with
          | None => Done None
          | Some (lines, ctx) => Done (Some (printed_line nm :: lines, ctx))
          end
      end
    end
  end.

(** The addresses in the registry are below the next one talloc gives
    out. *)
Definition fresh_alloc (m : MPContext) : Prop :=
  Forall (fun c => (c.1 < next_client m)%nat) (clients m).

(** The handle after the reply [e] to one of its reservations is written. *)
Definition replied (e : mpv_event_data) (h : mpv_handle) : mpv_handle :=
  wakeup_client (ring_push e (set_reserved_events (reserved_events h - 1) h)).

(** * Properties *)

Lemma esize_pos : 0 < esize.
Proof. unfold esize. lia. Qed.

Lemma choke_lines_app l1 l2 :
  choke_lines (l1 ++ l2) = (choke_lines l1 + choke_lines l2)%nat.
Proof.
  induction l1 as [|x l1 IH]; [done|].
  destruct x as [| | line |]; simpl; auto.
  destruct (String.eqb line too_many_events); simpl; auto with arith.
Qed.

Lemma signals_app l1 l2 :
  signals (l1 ++ l2) = (signals l1 + signals l2)%nat.
Proof.
  induction l1 as [|x l1 IH]; [done|].
  destruct x; simpl; auto with arith.
Qed.

(** A step-indexed invariant holds of every reachable state. *)
Lemma reachable_invariant (P : mpv_handle -> Prop) nm :
  P (new_handle nm) ->
  (forall h h', P h -> handle_step h h' -> P h') ->
  forall h, reachable nm h -> P h.
Proof.
  intros H0 Hstep. unfold reachable.
  apply rtc_ind_r; [exact H0 | eauto].
Qed.

(** *** What each operation leaves alone *)

Lemma wakeup_client_fields h :
  let h' := wakeup_client h in
  name h' = name h /\ alloc_reply_id h' = alloc_reply_id h /\
  event_mask h' = event_mask h /\ queued_wakeup h' = queued_wakeup h /\
  shutdown h' = shutdown h /\ choke_warning h' = choke_warning h /\
  events h' = events h /\ max_events h' = max_events h /\
  reserved_events h' = reserved_events h /\ messages h' = messages h /\
  cur_event h' = cur_event h /\
  choke_lines (effects h') = choke_lines (effects h) /\
  signals (effects h') = S (signals (effects h)).
Proof.
  unfold wakeup_client; simpl.
  destruct (wakeup_cb h =? 0); simpl;
    rewrite ?choke_lines_app, ?signals_app; simpl;
    repeat split; lia.
Qed.

(** The ring write of one record succeeds exactly when a record fits. *)
Lemma mp_ring_write_fits r e :
  esize <= mp_ring_available r ->
  mp_ring_write r e = (esize, mk_ring (ring_size r) (ring_buf r ++ [e])).
Proof.
  intros H. unfold mp_ring_write.
  destruct (Z.leb_spec esize (mp_ring_available r)); [done | lia].
Qed.

Lemma mp_ring_write_short r e :
  mp_ring_available r < esize ->
  (mp_ring_write r e).1 <> esize.
Proof.
  intros H. pose proof esize_pos. unfold mp_ring_write.
  destruct (Z.leb_spec esize (mp_ring_available r)); [lia|].
  cbn [fst]. lia.
Qed.

Lemma slots_fit r k :
  0 <= k -> k < mp_ring_available r / esize -> esize <= mp_ring_available r.
Proof.
  intros Hk Hlt. pose proof esize_pos as Hp.
  destruct (Z_lt_le_dec (mp_ring_available r) esize) as [Hs|]; [|done].
  assert (mp_ring_available r / esize < 1)
    by (apply Z.div_lt_upper_bound; lia).
  lia.
Qed.

(** *** [send_event] and [send_reply], case by case *)

Lemma send_event_masked h e :
  mask_has (event_mask h) (event_id e) = false ->
  send_event h e = Done (0, h).
Proof. intros H. unfold send_event. by rewrite H. Qed.

Lemma send_event_written h e :
  mask_has (event_mask h) (event_id e) = true ->
  0 <= reserved_events h ->
  reserved_events h < mp_ring_available (events h) / esize ->
  send_event h e = Done (0, wakeup_client (ring_push e h)).
Proof.
  intros Hm H0 Hlt. pose proof esize_pos as Hp.
  unfold send_event. rewrite Hm. cbn.
  destruct (Z.ltb_spec (reserved_events h)
              (mp_ring_available (events h) / esize)); [|lia].
  rewrite mp_ring_write_fits by eauto using slots_fit.
  rewrite Z.eqb_refl. cbn.
  destruct (Z.eqb_spec esize 0); [lia|]. done.
Qed.

Lemma send_event_dropped h e :
  mask_has (event_mask h) (event_id e) = true ->
  mp_ring_available (events h) / esize <= reserved_events h ->
  send_event h e = Done (-1, choke_warn h).
Proof.
  intros Hm Hle. unfold send_event, choke_warn. rewrite Hm. cbn.
  destruct (Z.ltb_spec (reserved_events h)
              (mp_ring_available (events h) / esize)); [lia|].
  cbn. by destruct (choke_warning h).
Qed.

Lemma send_reply_unreserved h id e :
  reserved_events h <= 0 -> send_reply h id e = AssertFail.
Proof.
  intros H. unfold send_reply.
  destruct (Z.ltb_spec 0 (reserved_events h)); [lia | done].
Qed.

Lemma send_reply_fits h id e :
  0 < reserved_events h ->
  esize <= mp_ring_available (events h) ->
  send_reply h id e =
    Done (wakeup_client
            (ring_push e (set_reserved_events (reserved_events h - 1) h))).
Proof.
  intros H Hfit. unfold send_reply.
  destruct (Z.ltb_spec 0 (reserved_events h)); [|lia]. cbn.
  rewrite mp_ring_write_fits by done.
  by rewrite Z.eqb_refl.
Qed.

Lemma send_reply_done h id e h' :
  send_reply h id e = Done h' ->
  0 < reserved_events h /\
  h' = wakeup_client
         (ring_push e (set_reserved_events (reserved_events h - 1) h)).
Proof.
  pose proof esize_pos as Hp. unfold send_reply.
  destruct (Z.ltb_spec 0 (reserved_events h)); [|done]. cbn.
  unfold mp_ring_write.
  destruct (Z.leb_spec esize (mp_ring_available (events h))); cbn.
  - rewrite Z.eqb_refl. cbn. intros [= <-]. done.
  - destruct (Z.eqb_spec (Z.max 0 (mp_ring_available (events h))) esize);
      cbn; [lia | done].
Qed.

Lemma send_event_done h e r h' :
  send_event h e = Done (r, h') ->
  (r = 0 /\ h' = h) \/
  (r = 0 /\ h' = wakeup_client (ring_push e h)) \/
  (r = -1 /\ h' = choke_warn h).
Proof.
  pose proof esize_pos as Hp.
  unfold send_event.
  destruct (mask_has (event_mask h) (event_id e)); cbn;
    [|intros [= <- <-]; auto].
  destruct (Z.ltb_spec (reserved_events h)
              (mp_ring_available (events h) / esize)); cbn.
  - unfold mp_ring_write.
    destruct (Z.leb_spec esize (mp_ring_available (events h))); cbn.
    + rewrite Z.eqb_refl. cbn.
      destruct (Z.eqb_spec esize 0); [lia|]. cbn.
      intros [= <- <-]. auto.
    + destruct (Z.eqb_spec (Z.max 0 (mp_ring_available (events h))) esize);
        cbn; [lia | done].
  - intros [= <- <-]. right; right. split; [done|].
    unfold choke_warn. by destruct (choke_warning h).
Qed.

(** *** One turn of the wait loop *)

Lemma wait_turn_sleep h timeout h' :
  wait_turn h timeout = Done (TimedWait h') ->
  h' = h /\ ring_buf (events h) = [] /\ shutdown h = false /\
  queued_wakeup h = false /\ Qle_bool timeout 0 = false.
Proof.
  unfold wait_turn, wait_turn_tail, mp_ring_read, mp_ring_buffered.
  pose proof esize_pos as Hp.
  destruct (ring_buf (events h)) as [|e0 rest] eqn:Hbuf; cbn.
  - rewrite Z.mul_0_r. cbn.
    destruct (shutdown h); [done|].
    destruct (messages h) as [[|msg buf]|]; cbn;
      destruct (queued_wakeup h); try done;
      destruct (Qle_bool timeout 0); try done;
      intros [= <-]; done.
  - destruct (Z.eqb_spec (esize * Z.pos (Pos.of_succ_nat (length rest))) 0);
      [lia|]. cbn. rewrite Z.eqb_refl. done.
Qed.

Lemma wait_turn_break h timeout h' :
  wait_turn h timeout = Done (Break h') -> wait_source h timeout h'.
Proof.
  unfold wait_turn, wait_turn_tail, mp_ring_read, mp_ring_buffered.
  pose proof esize_pos as Hp.
  destruct (ring_buf (events h)) as [|e0 rest] eqn:Hbuf; cbn.
  - rewrite Z.mul_0_r. cbn.
    destruct (shutdown h) eqn:Hs.
    { intros [= <-]. by apply from_shutdown. }
    destruct (messages h) as [[|msg buf]|] eqn:Hm; cbn.
    + destruct (queued_wakeup h) eqn:Hq.
      { intros [= <-]. apply from_wakeup; auto. }
      destruct (Qle_bool timeout 0) eqn:Ht; [|done].
      intros [= <-]. apply from_timeout; auto.
    + intros [= <-]. by eapply from_log.
    + destruct (queued_wakeup h) eqn:Hq.
      { intros [= <-]. apply from_wakeup; auto. }
      destruct (Qle_bool timeout 0) eqn:Ht; [|done].
      intros [= <-]. apply from_timeout; auto.
  - destruct (Z.eqb_spec (esize * Z.pos (Pos.of_succ_nat (length rest))) 0);
      [lia|]. cbn. rewrite Z.eqb_refl. cbn.
    intros [= <-]. by eapply from_ring.
Qed.

Lemma wait_turn_total h timeout :
  exists t, wait_turn h timeout = Done t.
Proof.
  unfold wait_turn, wait_turn_tail, mp_ring_read, mp_ring_buffered.
  pose proof esize_pos as Hp.
  destruct (ring_buf (events h)) as [|e0 rest] eqn:Hbuf; cbn.
  - rewrite Z.mul_0_r. cbn.
    destruct (shutdown h); [eauto|].
    destruct (messages h) as [[|msg buf]|]; cbn; eauto.
  - destruct (Z.eqb_spec (esize * Z.pos (Pos.of_succ_nat (length rest))) 0);
      [lia|]. cbn. rewrite Z.eqb_refl. cbn. eauto.
Qed.

(** *** What one step changes *)

Lemma choke_lines_freed l : choke_lines (map Freed l) = O.
Proof. induction l; simpl; auto. Qed.

Lemma signals_freed l : signals (map Freed l) = O.
Proof. induction l; simpl; auto. Qed.

Lemma choke_warn_fields h :
  let h' := choke_warn h in
  name h' = name h /\ alloc_reply_id h' = alloc_reply_id h /\
  event_mask h' = event_mask h /\ events h' = events h /\
  max_events h' = max_events h /\
  reserved_events h' = reserved_events h /\
  choke_warning h' = true /\
  signals (effects h') = signals (effects h) /\
  choke_lines (effects h') =
    (choke_lines (effects h) + (if choke_warning h then 0 else 1))%nat.
Proof.
  unfold choke_warn. destruct (choke_warning h) eqn:Hc; cbn;
    rewrite ?choke_lines_app, ?signals_app; cbn; repeat split; auto; lia.
Qed.

Lemma handle_step_frame h h' :
  handle_step h h' ->
  name h' = name h /\ max_events h' = max_events h /\
  reservation_move h h' /\
  (choke_warning h = true -> choke_warning h' = true) /\
  choke_lines (effects h') =
    (choke_lines (effects h) +
     (if choke_warning h then 0 else if choke_warning h' then 1 else 0))%nat.
Proof.
  unfold reservation_move.
  destruct 1 as [h|h e r h' Hs|h id e h' Hs|h ev en|h lvl|h|h cb d|h
                |h t h' Hw|h t h' Hw|h|h buf entry Hm].
  - unfold reserve_reply.
    destruct (Z.ltb_spec (reserved_events h) (max_events h)); cbn;
      destruct (choke_warning h); repeat split; auto; lia.
  - apply send_event_done in Hs as [[_ ->]|[[_ ->]|[_ ->]]].
    + destruct (choke_warning h); repeat split; auto; lia.
    + destruct (wakeup_client_fields (ring_push e h))
        as (-> & _ & _ & _ & _ & -> & _ & -> & -> & _ & _ & -> & _).
      cbn. destruct (choke_warning h); repeat split; auto; lia.
    + destruct (choke_warn_fields h)
        as (-> & _ & _ & _ & -> & -> & -> & _ & ->).
      destruct (choke_warning h); repeat split; auto; lia.
  - apply send_reply_done in Hs as [Hpos ->].
    destruct (wakeup_client_fields
                (ring_push e (set_reserved_events (reserved_events h - 1) h)))
      as (-> & _ & _ & _ & _ & -> & _ & -> & -> & _ & _ & -> & _).
    cbn. destruct (choke_warning h); repeat split; auto; lia.
  - unfold mpv_request_event.
    destruct (mpv_event_name ev); cbn;
      [destruct ((en <? 0) || (1 <? en)); cbn|];
      destruct (choke_warning h); repeat split; auto; lia.
  - unfold mpv_request_log_messages.
    repeat (case_match; cbn);
      destruct (choke_warning h); repeat split; auto; lia.
  - unfold mpv_wakeup.
    destruct (wakeup_client_fields (set_queued_wakeup true h))
      as (-> & _ & _ & _ & _ & -> & _ & -> & -> & _ & _ & -> & _).
    cbn. destruct (choke_warning h); repeat split; auto; lia.
  - cbn. destruct (choke_warning h); repeat split; auto; lia.
  - cbn. rewrite choke_lines_app, choke_lines_freed.
    destruct (choke_warning h); repeat split; auto; lia.
  - apply wait_turn_break in Hw. destruct Hw; cbn;
      destruct (choke_warning h); repeat split; auto; lia.
  - apply wait_turn_sleep in Hw as [-> _].
    destruct (choke_warning h); repeat split; auto; lia.
  - cbn. destruct (choke_warning h); repeat split; auto; lia.
  - cbn. destruct (choke_warning h); repeat split; auto; lia.
Qed.

Lemma reachable_bounds nm h :
  reachable nm h ->
  max_events h = 1000 /\ 0 <= reserved_events h <= max_events h.
Proof.
  revert h. apply reachable_invariant; [cbn; lia|].
  intros h h' [Hmax Hres] Hstep.
  apply handle_step_frame in Hstep as (_ & Hm & Hmove & _).
  unfold reservation_move in Hmove. lia.
Qed.

Lemma reachable_choke nm h :
  reachable nm h ->
  choke_lines (effects h) = (if choke_warning h then 1 else 0)%nat.
Proof.
  revert h. apply reachable_invariant; [done|].
  intros h h' IH Hstep.
  apply handle_step_frame in Hstep as (_ & _ & _ & Hlatch & ->).
  rewrite IH. destruct (choke_warning h); [by rewrite Hlatch|].
  destruct (choke_warning h'); done.
Qed.

(** *** The wait loop *)

Lemma wait_loop_break env h timeout h' :
  wait_turn h timeout = Done (Break h') ->
  wait_loop env h timeout = Done (Some h').
Proof. intros H. destruct env; cbn; by rewrite H. Qed.

Lemma wait_loop_sleep f env h timeout :
  wait_turn h timeout = Done (TimedWait h) ->
  wait_loop (f :: env) h timeout = wait_loop env (f h) timeout.
Proof. intros H. cbn. by rewrite H. Qed.

Lemma wait_loop_asleep h timeout :
  wait_turn h timeout = Done (TimedWait h) ->
  wait_loop [] h timeout = Done None.
Proof. intros H. cbn. by rewrite H. Qed.

Lemma ring_head_buffered h e rest :
  ring_buf (events h) = e :: rest ->
  (mp_ring_buffered (events h) =? 0) = false.
Proof.
  intros H. pose proof esize_pos. unfold mp_ring_buffered. rewrite H.
  apply Z.eqb_neq. cbn [length]. lia.
Qed.

Lemma ring_empty_buffered h :
  ring_buf (events h) = [] ->
  (mp_ring_buffered (events h) =? 0) = true.
Proof.
  intros H. unfold mp_ring_buffered. rewrite H. apply Z.eqb_eq. cbn. lia.
Qed.

Lemma wait_turn_ring h timeout e rest :
  ring_buf (events h) = e :: rest ->
  wait_turn h timeout =
    Done (Break (set_cur_event e
                   (talloc_steal (cur_event_children h) (data e))
                   (set_events (mk_ring (ring_size (events h)) rest) h))).
Proof.
  intros H. unfold wait_turn.
  rewrite (ring_head_buffered _ _ _ H). cbn.
  unfold mp_ring_read. rewrite H. by rewrite Z.eqb_refl.
Qed.

Lemma wait_turn_shutdown h timeout :
  ring_buf (events h) = [] ->
  shutdown h = true ->
  wait_turn h timeout =
    Done (Break (set_cur_event
                   (set_event_id MPV_EVENT_SHUTDOWN (cur_event h))
                   (cur_event_children h) h)).
Proof.
  intros H Hs. unfold wait_turn.
  rewrite (ring_empty_buffered _ H), Hs. done.
Qed.

Lemma wait_turn_log h timeout msg buf :
  ring_buf (events h) = [] ->
  shutdown h = false ->
  messages h = Some (msg :: buf) ->
  wait_turn h timeout =
    Done (Break
      (let cmsg :=
         log_message_data
           (mk_event_log_message (entry_prefix msg)
              (mp_log_levels (entry_level msg)) (entry_text msg)) in
       set_cur_event
         (set_data cmsg (set_event_id MPV_EVENT_LOG_MESSAGE (cur_event h)))
         (cur_event_children h ++ [cmsg])
         (set_messages (Some buf) (messages_level h) h))).
Proof.
  intros H Hs Hm. unfold wait_turn.
  rewrite (ring_empty_buffered _ H), Hs, Hm. done.
Qed.

Lemma wait_turn_idle h timeout :
  ring_buf (events h) = [] ->
  shutdown h = false ->
  (messages h = None \/ messages h = Some []) ->
  wait_turn h timeout = Done (wait_turn_tail h timeout).
Proof.
  intros H Hs Hm. unfold wait_turn.
  rewrite (ring_empty_buffered _ H), Hs. by destruct Hm as [-> | ->].
Qed.

(** ** Reservation of replies *)

(** The ID [reserve_reply] gives out is one more than the last one, as long
    as fewer than [2^63 - 1] were given out. *)
Lemma reserve_reply_next h :
  0 <= alloc_reply_id h < 2 ^ 63 - 1 ->
  reserved_events h < max_events h ->
  (reserve_reply h).1 = alloc_reply_id h + 1 /\
  alloc_reply_id (reserve_reply h).2 = alloc_reply_id h + 1 /\
  reserved_events (reserve_reply h).2 = reserved_events h + 1.
Proof.
  intros Ha H. unfold reserve_reply.
  destruct (Z.ltb_spec (reserved_events h) (max_events h)); [|lia].
  cbn. unfold to_int64, to_uint64.
  rewrite Z.mod_mod by lia.
  rewrite (Z.mod_small (alloc_reply_id h + 1)) by lia.
  destruct (Z.ltb_spec (alloc_reply_id h + 1) (2 ^ 63)); [done | lia].
Qed.

(** C2.  For every client handle [0 <= reserved_events <= max_events = 1000]
    holds in every state the handle can reach.  [reserve_reply] increments
    [reserved_events] and returns the incremented reply-ID counter when
    [reserved_events < max_events]; otherwise it returns
    [MPV_ERROR_EVENT_BUFFER_FULL] (-1) and leaves the handle as it was.
    [send_reply] fails its assertion unless [reserved_events > 0], and when
    it returns it has decremented [reserved_events] by one (it does return
    when a record fits in the ring). *)
Theorem reservation_safety :
  (forall nm h, reachable nm h ->
     max_events h = 1000 /\ 0 <= reserved_events h <= max_events h) /\
  (forall h, reserved_events h < max_events h ->
     reserve_reply h =
       (to_int64 (to_uint64 (alloc_reply_id h + 1)),
        set_alloc_reply_id (to_uint64 (alloc_reply_id h + 1))
          (set_reserved_events (reserved_events h + 1) h))) /\
  (forall h, 0 <= alloc_reply_id h < 2 ^ 63 - 1 ->
     reserved_events h < max_events h ->
     (reserve_reply h).1 = alloc_reply_id h + 1 /\
     alloc_reply_id (reserve_reply h).2 = alloc_reply_id h + 1 /\
     reserved_events (reserve_reply h).2 = reserved_events h + 1) /\
  (forall h, max_events h <= reserved_events h ->
     reserve_reply h = (MPV_ERROR_EVENT_BUFFER_FULL, h)) /\
  (forall h id e, reserved_events h <= 0 -> send_reply h id e = AssertFail) /\
  (forall h id e h', send_reply h id e = Done h' ->
     0 < reserved_events h /\
     reserved_events h' = reserved_events h - 1) /\
  (forall h id e, 0 < reserved_events h ->
     esize <= mp_ring_available (events h) ->
     exists h', send_reply h id e = Done h' /\
                reserved_events h' = reserved_events h - 1).
Proof.
  split; [apply reachable_bounds|].
  split.
  { intros h H. unfold reserve_reply.
    destruct (Z.ltb_spec (reserved_events h) (max_events h)); [done | lia]. }
  split.
  { apply reserve_reply_next. }
  split.
  { intros h H. unfold reserve_reply.
    destruct (Z.ltb_spec (reserved_events h) (max_events h)); [lia | done]. }
  split; [apply send_reply_unreserved|].
  split.
  { intros h id e h' H. apply send_reply_done in H as [Hpos ->].
    split; [done|].
    by destruct (wakeup_client_fields
                   (ring_push e
                      (set_reserved_events (reserved_events h - 1) h)))
      as (_ & _ & _ & _ & _ & _ & _ & _ & -> & _). }
  intros h id e Hpos Hfit. eexists. split; [by apply send_reply_fits|].
  by destruct (wakeup_client_fields
                 (ring_push e
                    (set_reserved_events (reserved_events h - 1) h)))
    as (_ & _ & _ & _ & _ & _ & _ & _ & -> & _).
Qed.

(** ** Unsolicited events *)

(** C3.  [send_event], for an event whose mask bit is clear, returns 0 and
    leaves the handle, its ring included, as it was.  With the bit set it
    appends the whole record to the ring and signals the wakeup when
    [mp_ring_available / sizeof(event) > reserved_events], and otherwise
    leaves the ring alone, signals nothing and returns -1, logging "Too many
    events queued." only if [choke_warning] was not yet set, and setting it.
    Over the whole life of a handle that line is logged at most once. *)
Theorem send_event_cases :
  (forall h e, mask_has (event_mask h) (event_id e) = false ->
     send_event h e = Done (0, h)) /\
  (forall h e, mask_has (event_mask h) (event_id e) = true ->
     0 <= reserved_events h ->
     reserved_events h < mp_ring_available (events h) / esize ->
     exists h', send_event h e = Done (0, h') /\
       ring_buf (events h') = ring_buf (events h) ++ [e] /\
       signals (effects h') = S (signals (effects h)) /\
       choke_lines (effects h') = choke_lines (effects h)) /\
  (forall h e, mask_has (event_mask h) (event_id e) = true ->
     mp_ring_available (events h) / esize <= reserved_events h ->
     exists h', send_event h e = Done (-1, h') /\
       events h' = events h /\
       signals (effects h') = signals (effects h) /\
       choke_warning h' = true /\
       choke_lines (effects h') =
         (choke_lines (effects h) +
          (if choke_warning h then 0 else 1))%nat) /\
  (forall nm h, reachable nm h -> (choke_lines (effects h) <= 1)%nat).
Proof.
  split; [apply send_event_masked|].
  split.
  { intros h e Hm H0 Hlt. eexists. split; [by apply send_event_written|].
    destruct (wakeup_client_fields (ring_push e h))
      as (_ & _ & _ & _ & _ & _ & -> & _ & _ & _ & _ & -> & ->).
    done. }
  split.
  { intros h e Hm Hle. eexists. split; [by apply send_event_dropped|].
    by destruct (choke_warn_fields h)
      as (_ & _ & _ & -> & _ & _ & -> & -> & ->). }
  intros nm h Hr. rewrite (reachable_choke _ _ Hr).
  destruct (choke_warning h); lia.
Qed.

(** ** Waiting for events *)

(** C4.  [mpv_wait_event] checks its sources in this order and returns at
    the first that applies, whatever other threads would do later: (1) a
    buffered ring record is popped and returned, its data now a child of the
    scratch event; (2) the shutdown flag gives a SHUTDOWN event; (3) a
    pending log-tap message gives a LOG_MESSAGE event; (4) [queued_wakeup]
    gives a NONE event and is cleared; (5) [timeout <= 0] gives a NONE
    event; (6) otherwise the call sleeps in [pthread_cond_timedwait] and on
    waking goes through the same checks again.  The call sleeps in case (6)
    only, and a later turn of the loop ends by the same sources in the same
    order. *)
Theorem wait_event_priority env ctx timeout :
  let h0 := wait_enter ctx in
  (forall e rest, ring_buf (events ctx) = e :: rest ->
     mpv_wait_event env ctx timeout =
       Done (Some (e,
         set_queued_wakeup false
           (set_cur_event e (talloc_steal [] (data e))
              (set_events (mk_ring (ring_size (events ctx)) rest) h0))))) /\
  (ring_buf (events ctx) = [] -> shutdown ctx = true ->
     mpv_wait_event env ctx timeout =
       Done (Some (set_event_id MPV_EVENT_SHUTDOWN zero_event,
         set_queued_wakeup false
           (set_cur_event (set_event_id MPV_EVENT_SHUTDOWN zero_event)
              [] h0)))) /\
  (forall msg buf, ring_buf (events ctx) = [] -> shutdown ctx = false ->
     messages ctx = Some (msg :: buf) ->
     let cmsg :=
       log_message_data
         (mk_event_log_message (entry_prefix msg)
            (mp_log_levels (entry_level msg)) (entry_text msg)) in
     let ev := mk_event 0 MPV_EVENT_LOG_MESSAGE 0 cmsg in
     mpv_wait_event env ctx timeout =
       Done (Some (ev,
         set_queued_wakeup false
           (set_cur_event ev [cmsg]
              (set_messages (Some buf) (messages_level ctx) h0))))) /\
  (ring_buf (events ctx) = [] -> shutdown ctx = false ->
   (messages ctx = None \/ messages ctx = Some []) ->
   (queued_wakeup ctx = true \/ Qle_bool timeout 0 = true) ->
     mpv_wait_event env ctx timeout =
       Done (Some (zero_event, set_queued_wakeup false h0))) /\
  (ring_buf (events ctx) = [] -> shutdown ctx = false ->
   (messages ctx = None \/ messages ctx = Some []) ->
   queued_wakeup ctx = false -> Qle_bool timeout 0 = false ->
     mpv_wait_event [] ctx timeout = Done None /\
     forall f env',
       mpv_wait_event (f :: env') ctx timeout =
         wait_loop env' (f h0) timeout ≫= wait_leave) /\
  (forall h h', wait_turn h timeout = Done (Break h') ->
     wait_source h timeout h') /\
  (forall h h', wait_turn h timeout = Done (TimedWait h') ->
     h' = h /\ ring_buf (events h) = [] /\ shutdown h = false /\
     queued_wakeup h = false /\ Qle_bool timeout 0 = false).
Proof.
  intros h0. unfold mpv_wait_event. fold h0.
  split.
  { intros e rest H.
    rewrite (wait_loop_break env h0 timeout _ (wait_turn_ring h0 _ e rest H)).
    done. }
  split.
  { intros H Hs.
    by rewrite (wait_loop_break env h0 timeout _
                  (wait_turn_shutdown h0 _ H Hs)). }
  split.
  { intros msg buf H Hs Hm.
    by rewrite (wait_loop_break env h0 timeout _
                  (wait_turn_log h0 _ msg buf H Hs Hm)). }
  split.
  { intros H Hs Hm Hq.
    assert (wait_turn h0 timeout = Done (Break h0)) as Ht.
    { rewrite (wait_turn_idle h0 _ H Hs Hm). unfold wait_turn_tail.
      change (queued_wakeup h0) with (queued_wakeup ctx).
      destruct (queued_wakeup ctx); [done|].
      destruct Hq as [ ? | -> ]; done. }
    by rewrite (wait_loop_break env h0 timeout _ Ht). }
  split.
  { intros H Hs Hm Hq Hto.
    assert (wait_turn h0 timeout = Done (TimedWait h0)) as Ht.
    { rewrite (wait_turn_idle h0 _ H Hs Hm). unfold wait_turn_tail.
      change (queued_wakeup h0) with (queued_wakeup ctx).
      by rewrite Hq, Hto. }
    split.
    - by rewrite (wait_loop_asleep _ _ Ht).
    - intros f env'. by rewrite (wait_loop_sleep f env' _ _ Ht). }
  split; intros h h'; [apply wait_turn_break | apply wait_turn_sleep].
Qed.

(** C10.  Every return of [mpv_wait_event] leaves [queued_wakeup] false,
    whichever source gave the returned event (a ring record, SHUTDOWN,
    LOG_MESSAGE or NONE); the event returned is the handle's scratch
    event. *)
Theorem wait_event_clears_wakeup env ctx timeout ev h' :
  mpv_wait_event env ctx timeout = Done (Some (ev, h')) ->
  queued_wakeup h' = false /\ ev = cur_event h'.
Proof.
  unfold mpv_wait_event.
  destruct (wait_loop env (wait_enter ctx) timeout) as [[h|]| | |];
    cbn; try done.
  intros [= <- <-]. done.
Qed.

(** ** The event mask *)

Lemma send_event_gate K h e r h' :
  send_event h e = Done (r, h') ->
  gate_inv K h -> gate_inv K h' /\ cur_event h' = cur_event h.
Proof.
  intros Hs [Hmask Hring].
  destruct (Z.eq_dec (event_id e) K) as [<-|Hne].
  { rewrite send_event_masked in Hs by done.
    injection Hs as <- <-. by repeat split. }
  apply send_event_done in Hs as [[_ ->]|[[_ ->]|[_ ->]]].
  - by repeat split.
  - destruct (wakeup_client_fields (ring_push e h))
      as (_ & _ & Hm & _ & _ & _ & Hev & _ & _ & _ & Hcur & _).
    unfold gate_inv. rewrite Hm, Hev, Hcur. cbn.
    repeat split; [done|]. apply Forall_app. split; [done|].
    by apply Forall_singleton.
  - destruct (choke_warn_fields h) as (_ & _ & Hm & Hev & _).
    unfold gate_inv. rewrite Hm, Hev. repeat split; [done..|].
    unfold choke_warn. by destruct (choke_warning h).
Qed.

Lemma wait_loop_gate K env h timeout h' :
  Forall (keeps_gate K) env ->
  gate_inv K h ->
  wait_loop env h timeout = Done (Some h') ->
  event_id (cur_event h') = K ->
  K = MPV_EVENT_SHUTDOWN \/ K = MPV_EVENT_LOG_MESSAGE \/
  K = event_id (cur_event h).
Proof.
  intros Henv. revert h.
  induction Henv as [|f env Hf Henv IH]; intros h Hg Hl Hk.
  - cbn in Hl.
    destruct (wait_turn h timeout) as [[h1|h1]| | |] eqn:Ht; try done.
    injection Hl as ->. apply wait_turn_break in Ht.
    destruct Hg as [_ Hring].
    destruct Ht as [e rest Hb| | | |]; cbn in Hk; auto.
    rewrite Hb in Hring. by inversion Hring.
  - cbn in Hl.
    destruct (wait_turn h timeout) as [[h1|h1]| | |] eqn:Ht; try done.
    + injection Hl as ->. apply wait_turn_break in Ht.
      destruct Hg as [_ Hring].
      destruct Ht as [e rest Hb| | | |]; cbn in Hk; auto.
      rewrite Hb in Hring. by inversion Hring.
    + apply wait_turn_sleep in Ht as [-> _].
      destruct (Hf h Hg) as [Hg' Hcur].
      rewrite <- Hcur. by apply IH.
Qed.

(** C5, as the code has it.  The mask is applied by [send_event] only.
    While the mask bit of kind [K] is 0 and the ring holds no event of kind
    [K], [send_event] (so a broadcast or a targeted send) never puts one
    there; and then an event of kind [K] that [mpv_wait_event] returns is
    one that it built itself: SHUTDOWN, LOG_MESSAGE or NONE.  (Replies
    written by [send_reply] are not filtered either.) *)
Theorem mask_gate_send_event K :
  (forall h e r h', send_event h e = Done (r, h') ->
     gate_inv K h -> gate_inv K h' /\ cur_event h' = cur_event h) /\
  (forall env ctx timeout ev h',
     Forall (keeps_gate K) env ->
     gate_inv K ctx ->
     mpv_wait_event env ctx timeout = Done (Some (ev, h')) ->
     event_id ev = K ->
     K = MPV_EVENT_SHUTDOWN \/ K = MPV_EVENT_LOG_MESSAGE \/
     K = MPV_EVENT_NONE).
Proof.
  split; [apply send_event_gate|].
  intros env ctx timeout ev h' Henv Hg Hw Hk.
  unfold mpv_wait_event in Hw.
  destruct (wait_loop env (wait_enter ctx) timeout) as [[h1|]| | |] eqn:Hl;
    cbn in Hw; try done.
  injection Hw as <- <-.
  apply (wait_loop_gate K) in Hl; auto.
Qed.

(** ** Errors found at submission *)

(** C6.  While the engine is not initialized, [mpv_command],
    [mpv_command_string], [mpv_set_property], [mpv_get_property] and the
    three asynchronous variants return [MPV_ERROR_UNINITIALIZED] (-7) at
    once; on an initialized engine a format other than [MPV_FORMAT_STRING]
    makes [mpv_set_property] and [mpv_set_property_async] return
    [MPV_ERROR_INVALID_PARAMETER] (-2) at once.  In all these cases the
    whole context is as before: the client's ring, its [reserved_events]
    and its reply-ID counter, and the dispatch queue, so that no reply is
    ever produced. *)
Theorem submission_errors m ctx h :
  handle_at (clients m) ctx = Some h ->
  (initialized m = false ->
     (forall args,
        mpv_command m ctx args = Done (MPV_ERROR_UNINITIALIZED, m)) /\
     (forall args,
        mpv_command_string m ctx args = Done (MPV_ERROR_UNINITIALIZED, m)) /\
     (forall args,
        mpv_command_async m ctx args = Done (MPV_ERROR_UNINITIALIZED, m)) /\
     (forall nm format d,
        mpv_set_property m ctx nm format d =
          Done (MPV_ERROR_UNINITIALIZED, m)) /\
     (forall nm format d,
        mpv_set_property_async m ctx nm format d =
          Done (MPV_ERROR_UNINITIALIZED, m)) /\
     (forall nm format d,
        mpv_get_property m ctx nm format d =
          Done (MPV_ERROR_UNINITIALIZED, None, m)) /\
     (forall nm format,
        mpv_get_property_async m ctx nm format =
          Done (MPV_ERROR_UNINITIALIZED, m))) /\
  (initialized m = true ->
   forall nm format d, format <> MPV_FORMAT_STRING ->
     mpv_set_property m ctx nm format d =
       Done (MPV_ERROR_INVALID_PARAMETER, m) /\
     mpv_set_property_async m ctx nm format d =
       Done (MPV_ERROR_INVALID_PARAMETER, m)) /\
  MPV_ERROR_UNINITIALIZED = -7 /\ MPV_ERROR_INVALID_PARAMETER = -2.
Proof.
  intros Hh. split; [|split; [|done]].
  - intros Hi.
    unfold mpv_command, mpv_command_string, mpv_command_async,
      mpv_set_property, mpv_set_property_async, mpv_get_property,
      mpv_get_property_async, run_client_command, deref.
    rewrite Hh, Hi. cbn. by repeat split.
  - intros Hi nm format d Hf.
    unfold mpv_set_property, mpv_set_property_async, deref.
    rewrite Hh, Hi. cbn.
    destruct (Z.eqb_spec format MPV_FORMAT_STRING); [done|]. by cbn.
Qed.

(** ** Client names *)

Lemma find_client_None cs nm :
  find_client cs nm = None <-> nm ∉ client_names cs.
Proof.
  induction cs as [|[p h] cs IH]; cbn.
  - split; [intros _; apply not_elem_of_nil | done].
  - rewrite not_elem_of_cons.
    destruct (String.eqb_spec (name h) nm) as [->|Hne].
    + split; [done | by intros [? _]].
    + rewrite IH. split; [by split | by intros [_ ?]].
Qed.

Lemma find_client_Some cs nm :
  nm ∈ client_names cs -> exists p, find_client cs nm = Some p.
Proof.
  intros H. destruct (find_client cs nm) eqn:Hf; [eauto|].
  by apply find_client_None in Hf.
Qed.

Lemma unique_name_loop_first cs nm n fuel k :
  (k < fuel)%nat ->
  (forall j, (j < k)%nat -> nm +:+ pretty (n + j)%nat ∈ client_names cs) ->
  nm +:+ pretty (n + k)%nat ∉ client_names cs ->
  unique_name_loop cs nm n fuel = Some (nm +:+ pretty (n + k)%nat).
Proof.
  revert n k. induction fuel as [|fuel IH]; intros n k Hk Hbusy Hfree;
    [lia|].
  cbn. destruct k as [|k].
  - rewrite Nat.add_0_r in Hfree. apply find_client_None in Hfree.
    rewrite Hfree. by rewrite Nat.add_0_r.
  - destruct (find_client_Some cs (nm +:+ pretty n)) as [p ->].
    { specialize (Hbusy O ltac:(lia)). by rewrite Nat.add_0_r in Hbusy. }
    replace (n + S k)%nat with (S n + k)%nat in * by lia.
    apply IH; [lia| |done].
    intros j Hj. specialize (Hbusy (S j) ltac:(lia)).
    by replace (n + S j)%nat with (S n + j)%nat in Hbusy by lia.
Qed.

Lemma unique_name_loop_none cs nm n fuel :
  (forall j, (j < fuel)%nat -> nm +:+ pretty (n + j)%nat ∈ client_names cs) ->
  unique_name_loop cs nm n fuel = None.
Proof.
  revert n. induction fuel as [|fuel IH]; intros n Hbusy; [done|].
  cbn. destruct (find_client_Some cs (nm +:+ pretty n)) as [p ->].
  { specialize (Hbusy O ltac:(lia)). by rewrite Nat.add_0_r in Hbusy. }
  apply IH. intros j Hj. specialize (Hbusy (S j) ltac:(lia)).
  by replace (n + S j)%nat with (S n + j)%nat in Hbusy by lia.
Qed.

Lemma unique_name_loop_free cs nm n fuel u :
  unique_name_loop cs nm n fuel = Some u -> u ∉ client_names cs.
Proof.
  revert n. induction fuel as [|fuel IH]; intros n; [done|]. cbn.
  destruct (find_client cs (nm +:+ pretty n)) eqn:Hf; [apply IH|].
  intros [= <-]. by apply find_client_None.
Qed.

Lemma client_names_register cs p u :
  client_names (cs ++ [(p, new_handle u)]) = client_names cs ++ [u].
Proof. unfold client_names. by rewrite map_app. Qed.

Lemma NoDup_snoc_fresh (l : list string) u :
  NoDup l -> u ∉ l -> NoDup (l ++ [u]).
Proof.
  intros Hl Hu. apply NoDup_app. split; [done|]. split.
  - intros x Hx Hx'. apply list_elem_of_singleton in Hx'. by subst.
  - apply NoDup_singleton.
Qed.

(** ** Who frees the data of an event *)

Lemma frees_app l1 l2 : frees (l1 ++ l2) = frees l1 ++ frees l2.
Proof.
  induction l1 as [|x l1 IH]; [done|].
  destruct x; cbn; by rewrite ?IH.
Qed.

Lemma wakeup_client_frees h :
  frees (effects (wakeup_client h)) = frees (effects h).
Proof.
  unfold wakeup_client. cbn.
  destruct (wakeup_cb h =? 0); cbn; rewrite !frees_app; cbn;
    by rewrite ?app_nil_r.
Qed.

Lemma send_event_frees h e r h' :
  send_event h e = Done (r, h') -> frees (effects h') = frees (effects h).
Proof.
  intros Hs. apply send_event_done in Hs as [[_ ->]|[[_ ->]|[_ ->]]].
  - done.
  - by rewrite wakeup_client_frees.
  - unfold choke_warn. destruct (choke_warning h); [done|]. cbn.
    rewrite frees_app. cbn. by rewrite app_nil_r.
Qed.

Lemma send_event_total h e :
  0 <= reserved_events h -> exists r h', send_event h e = Done (r, h').
Proof.
  intros H0.
  destruct (mask_has (event_mask h) (event_id e)) eqn:Hm.
  - destruct (Z_lt_le_dec (reserved_events h)
                (mp_ring_available (events h) / esize)).
    + eexists _, _. by apply send_event_written.
    + eexists _, _. by apply send_event_dropped.
  - eexists _, _. by apply send_event_masked.
Qed.

Lemma broadcast_loop_frees cs e cs' :
  broadcast_loop cs e = Done cs' ->
  client_frees cs' = client_frees cs /\ client_names cs' = client_names cs.
Proof.
  revert cs'. induction cs as [|[p h] cs IH]; intros cs'; cbn.
  - by intros [= <-].
  - destruct (send_event h e) as [[r h']| | |] eqn:Hs; cbn; try done.
    destruct (broadcast_loop cs e) as [cs1| | |]; cbn; try done.
    intros [= <-]. destruct (IH cs1 eq_refl) as [IHf IHn]. split.
    + unfold client_frees in *. cbn.
      by rewrite IHf, (send_event_frees _ _ _ _ Hs).
    + unfold client_names in *. cbn. rewrite IHn. f_equal.
      apply send_event_done in Hs as [[_ ->]|[[_ ->]|[_ ->]]].
      * done.
      * by destruct (wakeup_client_fields (ring_push e h)) as (-> & _).
      * by destruct (choke_warn_fields h) as (-> & _).
Qed.

Lemma broadcast_loop_total cs e :
  Forall (fun c => 0 <= reserved_events c.2) cs ->
  exists cs', broadcast_loop cs e = Done cs'.
Proof.
  induction 1 as [|[p h] cs H0 _ [cs1 IH]]; cbn; [eauto|].
  destruct (send_event_total h e H0) as (r & h' & ->). cbn.
  rewrite IH. cbn. eauto.
Qed.

(** C9.  [mp_client_broadcast_event] frees [data] once in each call, after
    the loop over the clients, however many clients there are and whatever
    [send_event] did for each of them (no client frees anything in the
    call).  [mp_client_send_event] frees [data] once when no client has the
    name, and frees nothing when one has it and [send_event] is called. *)
Theorem event_data_freed_once m event d :
  (forall m', mp_client_broadcast_event m event d = Done m' ->
     freed m' = freed m ++ [d] /\
     client_frees (clients m') = client_frees (clients m)) /\
  (Forall (fun c => 0 <= reserved_events c.2) (clients m) ->
     exists m', mp_client_broadcast_event m event d = Done m') /\
  (clients m = [] ->
     mp_client_broadcast_event m event d = Done (talloc_free d m)) /\
  (forall nm, find_client (clients m) nm = None ->
     mp_client_send_event m nm event d = Done (-1, talloc_free d m) /\
     freed (talloc_free d m) = freed m ++ [d]) /\
  (forall nm ctx r m', find_client (clients m) nm = Some ctx ->
     mp_client_send_event m nm event d = Done (r, m') ->
     freed m' = freed m).
Proof.
  unfold mp_client_broadcast_event, mp_client_send_event.
  split; [|split; [|split; [|split]]].
  - intros m'.
    destruct (broadcast_loop (clients m) (mk_event 0 event 0 d))
      as [cs| | |] eqn:Hb; cbn; try done.
    intros [= <-]. cbn. split; [done|].
    apply broadcast_loop_frees in Hb as [Hf _]. exact Hf.
  - intros H0.
    destruct (broadcast_loop_total _ (mk_event 0 event 0 d) H0) as [cs ->].
    cbn. eauto.
  - intros Hc. rewrite Hc. cbn. unfold talloc_free, set_clients. cbn.
    by rewrite Hc.
  - intros nm ->. done.
  - intros nm ctx r m' ->. unfold deref.
    destruct (handle_at (clients m) ctx) as [h|]; cbn; [|done].
    destruct (send_event h (mk_event 0 event 0 d)) as [[r' h']| | |];
      cbn; try done.
    by intros [= <- <-].
Qed.

(** ** Reply IDs and the replies *)

(** Only [reserve_reply] moves the reply-ID counter, one up at a time. *)
Lemma handle_step_alloc h h' :
  handle_step h h' ->
  alloc_reply_id h' = alloc_reply_id h \/
  (reserved_events h < max_events h /\ h' = (reserve_reply h).2 /\
   alloc_reply_id h' = to_uint64 (alloc_reply_id h + 1)).
Proof.
  destruct 1 as [h|h e r h' Hs|h id e h' Hs|h ev en|h lvl|h|h cb d|h
                |h t h' Hw|h t h' Hw|h|h buf entry Hm].
  - unfold reserve_reply.
    destruct (Z.ltb_spec (reserved_events h) (max_events h)); cbn; auto.
  - left. apply send_event_done in Hs as [[_ ->]|[[_ ->]|[_ ->]]].
    + done.
    + by destruct (wakeup_client_fields (ring_push e h)) as (_ & -> & _).
    + by destruct (choke_warn_fields h) as (_ & -> & _).
  - left. apply send_reply_done in Hs as [_ ->].
    by destruct (wakeup_client_fields
                   (ring_push e
                      (set_reserved_events (reserved_events h - 1) h)))
      as (_ & -> & _).
  - left. unfold mpv_request_event. by repeat (case_match; cbn).
  - left. unfold mpv_request_log_messages. by repeat (case_match; cbn).
  - left. unfold mpv_wakeup.
    by destruct (wakeup_client_fields (set_queued_wakeup true h))
      as (_ & -> & _).
  - by left.
  - by left.
  - left. apply wait_turn_break in Hw. by destruct Hw.
  - left. by apply wait_turn_sleep in Hw as [-> _].
  - by left.
  - by left.
Qed.

(** The reply-ID counter of a client stays a [uint64_t] value. *)
Lemma reachable_alloc nm h :
  reachable nm h -> 0 <= alloc_reply_id h < 2 ^ 64.
Proof.
  revert h. apply reachable_invariant; [cbn; lia|].
  intros h h' IH Hstep.
  apply handle_step_alloc in Hstep as [->|(_ & _ & ->)]; [done|].
  unfold to_uint64. apply Z.mod_pos_bound. lia.
Qed.

(** [send_reply] writes the event it is given, as it is given: the
    [reply_id] argument goes nowhere. *)
Lemma send_reply_ignores_id h id id' e :
  send_reply h id e = send_reply h id' e.
Proof. done. Qed.

(** The events of [mp_client_status_reply] have [in_reply_to = 0]. *)
Lemma status_reply_in_reply_to h id status h' :
  mp_client_status_reply h id status = Done h' ->
  exists ev,
    ring_buf (events h') = ring_buf (events h) ++ [ev] /\
    in_reply_to ev = 0 /\
    (event_id ev = MPV_EVENT_OK \/ event_id ev = MPV_EVENT_ERROR).
Proof.
  unfold mp_client_status_reply, send_error_reply.
  destruct (status <? 0); intros Hs;
    apply send_reply_done in Hs as [_ ->];
    match goal with
    | |- context [ring_push ?e ?x] =>
      destruct (wakeup_client_fields (ring_push e x))
        as (_ & _ & _ & _ & _ & _ & -> & _); exists e
    end; cbn; auto.
Qed.

(** ** The names in the registry never change *)

Lemma handle_steps_name h h' : rtc handle_step h h' -> name h' = name h.
Proof.
  induction 1 as [|h h1 h2 Hs _ IH]; [done|].
  apply handle_step_frame in Hs as (Hn & _). by rewrite IH.
Qed.

Lemma store_at_names cs ctx h h' :
  handle_at cs ctx = Some h -> name h' = name h ->
  client_names (store_at cs ctx h') = client_names cs.
Proof.
  intros Hat Hn. induction cs as [|[p h0] cs IH]; [done|].
  cbn in *. destruct (Nat.eqb p ctx).
  - injection Hat as ->. unfold client_names. cbn. by rewrite Hn.
  - unfold client_names in *. cbn. by rewrite IH.
Qed.

Lemma on_client_names m ctx f m' :
  (forall h h', f h = Done h' -> name h' = name h) ->
  on_client m ctx f = Done m' ->
  client_names (clients m') = client_names (clients m).
Proof.
  intros Hf. unfold on_client, deref.
  destruct (handle_at (clients m) ctx) as [h|] eqn:Hat; cbn; [|done].
  destruct (f h) as [h'| | |] eqn:Hfh; cbn; try done.
  intros [= <-]. cbn. eapply store_at_names; eauto.
Qed.

Lemma send_reply_name h id e h' :
  send_reply h id e = Done h' -> name h' = name h.
Proof.
  intros Hs. apply handle_steps_name. apply rtc_once.
  by eapply step_send_reply.
Qed.

Lemma status_reply_name h id status h' :
  mp_client_status_reply h id status = Done h' -> name h' = name h.
Proof.
  unfold mp_client_status_reply, send_error_reply.
  destruct (status <? 0); apply send_reply_name.
Qed.

Lemma cmd_fn_names m req m' req' :
  cmd_fn m req = Done (m', req') ->
  client_names (clients m') = client_names (clients m).
Proof.
  unfold cmd_fn. cbn. destruct (cmd_reply_ctx req) as [ctx|].
  - destruct (on_client _ ctx _) as [m1| | |] eqn:Ho; cbn; try done.
    intros [= <- _]. apply on_client_names in Ho; [done|].
    intros h h'. first [apply send_reply_name | apply status_reply_name].
  - by intros [= <- _].
Qed.

Lemma setproperty_fn_names m req m' req' :
  setproperty_fn m req = Done (m', req') ->
  client_names (clients m') = client_names (clients m).
Proof.
  unfold setproperty_fn.
  destruct (mp_property_do E _ _ _ _ _) as [[err out] st]. cbn.
  destruct (sp_reply_ctx req) as [ctx|].
  - destruct (on_client _ ctx _) as [m1| | |] eqn:Ho; cbn; try done.
    intros [= <- _]. apply on_client_names in Ho; [done|].
    intros h h'. first [apply send_reply_name | apply status_reply_name].
  - by intros [= <- _].
Qed.

Lemma getproperty_fn_names m req m' req' out :
  getproperty_fn m req = Done (m', req', out) ->
  client_names (clients m') = client_names (clients m).
Proof.
  unfold getproperty_fn.
  destruct (property_format_to_cmd (gp_format req) <? 0).
  - cbn. destruct (gp_reply_ctx req) as [ctx|].
    + destruct (on_client _ ctx _) as [m1| | |] eqn:Ho; cbn; try done.
      intros [= <- _ _]. apply on_client_names in Ho; [done|].
      intros h h'. unfold send_error_reply.
      case_match; apply send_reply_name.
    + by intros [= <- _ _].
  - destruct (mp_property_do E _ _ _ _ _) as [[err o] st]. cbn.
    destruct (gp_reply_ctx req) as [ctx|].
    + destruct (on_client _ ctx _) as [m1| | |] eqn:Ho; cbn; try done.
      intros [= <- _ _]. apply on_client_names in Ho; [done|].
      intros h h'. unfold send_error_reply.
      case_match; apply send_reply_name.
    + by intros [= <- _ _].
Qed.

Lemma process_items_names items m m' :
  process_items items m = Done m' ->
  client_names (clients m') = client_names (clients m).
Proof.
  revert m. induction items as [|it items IH]; intros m; cbn.
  - by intros [= <-].
  - destruct (run_item m it) as [m1| | |] eqn:Hr; cbn; try done.
    intros Hp. rewrite (IH _ Hp). clear Hp IH.
    destruct it as [req|req|req]; cbn in Hr.
    + destruct (cmd_fn m req) as [[m2 r2]| | |] eqn:Hc; cbn in Hr;
        try done.
      injection Hr as <-. by eapply cmd_fn_names.
    + destruct (setproperty_fn m req) as [[m2 r2]| | |] eqn:Hc; cbn in Hr;
        try done.
      injection Hr as <-. by eapply setproperty_fn_names.
    + destruct (getproperty_fn m req) as [[[m2 r2] o]| | |] eqn:Hc;
        cbn in Hr; try done.
      injection Hr as <-. by eapply getproperty_fn_names.
Qed.

Lemma queue_process_names m m' :
  mp_dispatch_queue_process m = Done m' ->
  client_names (clients m') = client_names (clients m).
Proof. intros H. by apply process_items_names in H. Qed.

Lemma run_async_names m ctx mk r m' :
  run_async m ctx mk = Done (r, m') ->
  client_names (clients m') = client_names (clients m).
Proof.
  unfold run_async, deref.
  destruct (handle_at (clients m) ctx) as [h|] eqn:Hat; cbn; [|done].
  destruct (reserve_reply h) as [id h'] eqn:Hr.
  assert (name h' = name h) as Hn.
  { replace h' with (reserve_reply h).2 by by rewrite Hr.
    apply handle_steps_name, rtc_once, step_reserve_reply. }
  destruct (id <? 0); intros [= _ <-]; cbn; by eapply store_at_names.
Qed.

(** Reduces the binds of a computation without unfolding its calls. *)
Local Ltac step_bind := cbv beta iota zeta delta [mbind outcome_bind negb].

Lemma run_locked_names {A} m (fn : MPContext -> outcome (MPContext * A))
    m' a :
  (forall m1 m2 a, fn m1 = Done (m2, a) ->
     client_names (clients m2) = client_names (clients m1)) ->
  run_locked m fn = Done (m', a) ->
  client_names (clients m') = client_names (clients m).
Proof.
  intros Hfn. unfold run_locked.
  destruct (mp_dispatch_queue_process m) as [m1| | |] eqn:Hq; cbn;
    try done.
  intros Hf. rewrite (Hfn _ _ _ Hf). by apply queue_process_names.
Qed.

Lemma run_client_command_names m ctx cmd r m' :
  run_client_command m ctx cmd = Done (r, m') ->
  client_names (clients m') = client_names (clients m).
Proof.
  unfold run_client_command.
  destruct (initialized m); step_bind; [|by intros [= _ <-]].
  destruct cmd as [c|]; [|by intros [= _ <-]].
  destruct (run_locked m _) as [[m1 req]| | |] eqn:Hr; step_bind; try done.
  intros [= _ <-]. eapply run_locked_names; [|exact Hr].
  intros m2 m3 a. apply cmd_fn_names.
Qed.

(** Every entry point that returns leaves the names in the registry as they
    were, [mp_new_client] and [mpv_destroy] apart. *)
Lemma api_names m :
  (forall ctx args r m', mpv_command m ctx args = Done (r, m') ->
     client_names (clients m') = client_names (clients m)) /\
  (forall ctx args r m', mpv_command_string m ctx args = Done (r, m') ->
     client_names (clients m') = client_names (clients m)) /\
  (forall ctx args r m', mpv_command_async m ctx args = Done (r, m') ->
     client_names (clients m') = client_names (clients m)) /\
  (forall ctx nm format d r m',
     mpv_set_property m ctx nm format d = Done (r, m') ->
     client_names (clients m') = client_names (clients m)) /\
  (forall ctx nm format d r m',
     mpv_set_property_async m ctx nm format d = Done (r, m') ->
     client_names (clients m') = client_names (clients m)) /\
  (forall ctx nm format d r out m',
     mpv_get_property m ctx nm format d = Done (r, out, m') ->
     client_names (clients m') = client_names (clients m)) /\
  (forall ctx nm format r m',
     mpv_get_property_async m ctx nm format = Done (r, m') ->
     client_names (clients m') = client_names (clients m)) /\
  (forall event d m', mp_client_broadcast_event m event d = Done m' ->
     client_names (clients m') = client_names (clients m)) /\
  (forall nm event d r m',
     mp_client_send_event m nm event d = Done (r, m') ->
     client_names (clients m') = client_names (clients m)).
Proof.
  unfold mpv_command, mpv_command_string, mpv_command_async,
    mpv_set_property, mpv_set_property_async, mpv_get_property,
    mpv_get_property_async, mp_client_broadcast_event,
    mp_client_send_event, deref.
  repeat split.
  - intros ctx args r m'.
    destruct (handle_at (clients m) ctx); step_bind; [|done].
    apply run_client_command_names.
  - intros ctx args r m'.
    destruct (handle_at (clients m) ctx); step_bind; [|done].
    apply run_client_command_names.
  - intros ctx args r m'.
    destruct (handle_at (clients m) ctx); step_bind; [|done].
    destruct (initialized m); step_bind; [|by intros [= _ <-]].
    destruct (mp_input_parse_cmd_strv E args "<client>");
      [apply run_async_names | by intros [= _ <-]].
  - intros ctx nm format d r m'.
    destruct (handle_at (clients m) ctx); step_bind; [|done].
    destruct (initialized m); step_bind; [|by intros [= _ <-]].
    destruct (format =? MPV_FORMAT_STRING); step_bind; [|by intros [= _ <-]].
    destruct (run_locked m _) as [[m1 req]| | |] eqn:Hr; step_bind; try done.
    intros [= _ <-]. eapply run_locked_names; [|exact Hr].
    intros m2 m3 a. apply setproperty_fn_names.
  - intros ctx nm format d r m'.
    destruct (handle_at (clients m) ctx); step_bind; [|done].
    destruct (initialized m); step_bind; [|by intros [= _ <-]].
    destruct (format =? MPV_FORMAT_STRING); step_bind; [|by intros [= _ <-]].
    apply run_async_names.
  - intros ctx nm format d r out m'.
    destruct (handle_at (clients m) ctx); step_bind; [|done].
    destruct (initialized m); step_bind; [|by intros [= _ _ <-]].
    destruct (run_locked m _) as [[m1 [req o]]| | |] eqn:Hr; step_bind;
      try done.
    intros [= _ _ <-]. eapply run_locked_names; [|exact Hr].
    intros m2 m3 [req' o']. cbn.
    destruct (getproperty_fn m2 _) as [[[m4 r4] o4]| | |] eqn:Hg; cbn;
      try done.
    intros [= <- _ _]. by eapply getproperty_fn_names.
  - intros ctx nm format r m'.
    destruct (handle_at (clients m) ctx); step_bind; [|done].
    destruct (initialized m); step_bind; [|by intros [= _ <-]].
    apply run_async_names.
  - intros event d m'.
    destruct (broadcast_loop (clients m) _) as [cs| | |] eqn:Hb; cbn;
      try done.
    intros [= <-]. cbn. by apply broadcast_loop_frees in Hb as [_ ?].
  - intros nm event d r m'.
    destruct (find_client (clients m) nm) as [ctx|];
      [|by intros [= _ <-]].
    destruct (handle_at (clients m) ctx) as [h|] eqn:Hat; step_bind; [|done].
    destruct (send_event h _) as [[r' h']| | |] eqn:Hs; cbn; try done.
    intros [= _ <-]. cbn. eapply store_at_names; [exact Hat|].
    apply handle_steps_name, rtc_once. by eapply step_send_event.
Qed.

Lemma remove_client_names cs ctx h cs' :
  remove_client cs ctx = Some (h, cs') ->
  client_names cs' `sublist_of` client_names cs.
Proof.
  revert cs'. induction cs as [|[p h0] cs IH]; intros cs'; cbn; [done|].
  destruct (Nat.eqb p ctx).
  - intros [= _ <-]. by apply sublist_cons.
  - destruct (remove_client cs ctx) as [[h1 cs1]|]; [|done].
    intros [= <- <-]. unfold client_names in *. cbn.
    apply sublist_skip. by apply IH.
Qed.

Lemma mp_new_client_NoDup m nm :
  NoDup (client_names (clients m)) ->
  NoDup (client_names (clients (mp_new_client m nm).2)).
Proof.
  intros Hnd. unfold mp_new_client.
  destruct (find_client (clients m) nm) eqn:Hf.
  - destruct (unique_name_loop (clients m) nm 2 998) as [u|] eqn:Hu;
      [|done].
    cbn. rewrite client_names_register.
    apply NoDup_snoc_fresh; [done|].
    by apply unique_name_loop_free in Hu.
  - cbn. rewrite client_names_register.
    apply NoDup_snoc_fresh; [done|]. by apply find_client_None.
Qed.

Lemma registry_step_NoDup m m' :
  registry_step m m' ->
  NoDup (client_names (clients m)) -> NoDup (client_names (clients m')).
Proof.
  destruct 1 as [m nm|m ctx m' Hd|m event d m' Hc|m nm event d r m' Hc
                |m ctx args r m' Hc|m ctx args r m' Hc|m ctx args r m' Hc
                |m ctx nm format d r m' Hc|m ctx nm format d r m' Hc
                |m ctx nm format d r out m' Hc|m ctx nm format r m' Hc
                |m m' Hc|m ctx h h' Hat Hs|m init st];
    intros Hnd;
    pose proof (api_names m)
      as (H1 & H2 & H3 & H4 & H5 & H6 & H7 & H8 & H9).
  - by apply mp_new_client_NoDup.
  - unfold mpv_destroy in Hd.
    destruct (remove_client (clients m) ctx) as [[h cs]|] eqn:Hr; [|done].
    injection Hd as <-. cbn.
    pose proof (remove_client_names _ _ _ _ Hr) as Hsub.
    by eapply sublist_NoDup.
  - by rewrite (H8 _ _ _ Hc).
  - by rewrite (H9 _ _ _ _ _ Hc).
  - by rewrite (H1 _ _ _ _ Hc).
  - by rewrite (H2 _ _ _ _ Hc).
  - by rewrite (H3 _ _ _ _ Hc).
  - by rewrite (H4 _ _ _ _ _ _ Hc).
  - by rewrite (H5 _ _ _ _ _ _ Hc).
  - by rewrite (H6 _ _ _ _ _ _ _ Hc).
  - by rewrite (H7 _ _ _ _ _ Hc).
  - by rewrite (queue_process_names _ _ Hc).
  - cbn. erewrite store_at_names; [done | exact Hat|].
    by apply handle_steps_name, rtc_once.
  - done.
Qed.

Lemma registry_NoDup m m' :
  rtc registry_step m m' ->
  NoDup (client_names (clients m)) -> NoDup (client_names (clients m')).
Proof.
  induction 1 as [|m m1 m2 Hs _ IH]; [done|].
  intros Hnd. apply IH. by eapply registry_step_NoDup.
Qed.

(** C7.  [mp_new_client], given a name that no registered client holds,
    registers the client under that name.  On collision it registers the
    first name among [name2] .. [name999] that is free; the call fails,
    returning NULL and leaving the registry alone, when all of these 998
    names are taken.  So a registry without a repeated name stays so. *)
Theorem new_client_names m nm :
  let names := client_names (clients m) in
  (nm ∉ names ->
     mp_new_client m nm = (Some (next_client m), register nm m)) /\
  (forall n, nm ∈ names -> (2 <= n < 1000)%nat ->
     (forall k, (2 <= k < n)%nat -> nm +:+ pretty k ∈ names) ->
     nm +:+ pretty n ∉ names ->
     mp_new_client m nm =
       (Some (next_client m), register (nm +:+ pretty n) m)) /\
  (nm ∈ names ->
     (forall k, (2 <= k < 1000)%nat -> nm +:+ pretty k ∈ names) ->
     mp_new_client m nm = (None, m)) /\
  (forall u, client_names (clients (register u m)) = names ++ [u]) /\
  (NoDup names -> NoDup (client_names (clients (mp_new_client m nm).2))) /\
  (forall m', NoDup names -> rtc registry_step m m' ->
     NoDup (client_names (clients m'))).
Proof.
  intros names.
  assert (forall m', NoDup names -> rtc registry_step m m' ->
            NoDup (client_names (clients m'))) as Hever
    by (intros m' Hnd Hr; by eapply registry_NoDup).
  assert (NoDup names ->
          NoDup (client_names (clients (mp_new_client m nm).2))) as Hnew
    by apply mp_new_client_NoDup.
  unfold mp_new_client.
  split; [|split; [|split; [|split; [|split; [exact Hnew | exact Hever]]]]].
  - intros Hfree. apply find_client_None in Hfree. by rewrite Hfree.
  - intros n Hin Hn Hbusy Hfree.
    destruct (find_client_Some _ _ Hin) as [p ->].
    rewrite (unique_name_loop_first _ nm 2 998 (n - 2)).
    + by replace (2 + (n - 2))%nat with n by lia.
    + lia.
    + intros j Hj. apply Hbusy. lia.
    + by replace (2 + (n - 2))%nat with n by lia.
  - intros Hin Hbusy.
    destruct (find_client_Some _ _ Hin) as [p ->].
    rewrite unique_name_loop_none; [done|].
    intros j Hj. apply Hbusy. lia.
  - intros u. apply client_names_register.
Qed.

(** * Further properties of the code *)

(** ** Names of errors and events *)

Lemma NoDup_err_table : NoDup err_table.
Proof. apply (bool_decide_unpack _). vm_compute. reflexivity. Qed.

Lemma NoDup_event_table : NoDup event_table.
Proof. apply (bool_decide_unpack _). vm_compute. reflexivity. Qed.

Lemma err_table_unknown : "unknown error" ∉ err_table.
Proof. apply (bool_decide_unpack _). vm_compute. reflexivity. Qed.

Lemma mpv_error_string_table e :
  -7 <= e <= 0 -> err_table !! Z.to_nat (- e) = Some (mpv_error_string e).
Proof.
  intros He. unfold mpv_error_string.
  destruct (Z.ltb_spec (- e) 0); [lia|].
  destruct (Z.ltb_spec (- e) (Z.of_nat (length err_table)));
    [|cbn in *; lia].
  destruct (err_table !! Z.to_nat (- e)) eqn:Hl; [done|].
  apply lookup_ge_None in Hl. cbn in Hl. lia.
Qed.

(** X1.  [mpv_error_string] gives "success" for every non-negative value, a
    name of its own for each of the codes -1 .. -7, none of them "unknown
    error", and "unknown error" for every value below -7 (above [INT_MIN],
    whose negation overflows). *)
Theorem error_string_names :
  (forall e, 0 <= e -> mpv_error_string e = "success") /\
  (forall e, - 2 ^ 31 < e < -7 -> mpv_error_string e = "unknown error") /\
  (forall e, -7 <= e <= 0 -> mpv_error_string e <> "unknown error") /\
  (forall e e', -7 <= e <= 0 -> -7 <= e' <= 0 ->
     mpv_error_string e = mpv_error_string e' -> e = e') /\
  mpv_error_string MPV_ERROR_EVENT_BUFFER_FULL = "request buffer full" /\
  mpv_error_string MPV_ERROR_UNINITIALIZED = "core not initialized".
Proof.
  split.
  { intros e He. unfold mpv_error_string.
    destruct (Z.ltb_spec (- e) 0); [done|].
    by replace e with 0 by lia. }
  split.
  { intros e He. unfold mpv_error_string.
    destruct (Z.ltb_spec (- e) 0); [lia|].
    destruct (Z.ltb_spec (- e) (Z.of_nat (length err_table)));
      [cbn in *; lia | done]. }
  split.
  { intros e He Hu. pose proof (mpv_error_string_table e He) as Hl.
    rewrite Hu in Hl. apply err_table_unknown.
    by eapply list_elem_of_lookup_2. }
  split; [|done].
  intros e e' He He' Heq.
  pose proof (mpv_error_string_table e He) as Hl.
  pose proof (mpv_error_string_table e' He') as Hl'.
  rewrite Heq in Hl.
  pose proof (NoDup_lookup _ _ _ _ NoDup_err_table Hl Hl'). lia.
Qed.

Lemma mpv_event_name_table e :
  0 <= e <= 15 -> exists s, mpv_event_name e = Some s /\
                            event_table !! Z.to_nat e = Some s.
Proof.
  intros He. unfold mpv_event_name.
  destruct (Z.ltb_spec e 0); [lia|].
  destruct (Z.leb_spec (Z.of_nat (length event_table)) e);
    [cbn in *; lia|]. cbn.
  destruct (event_table !! Z.to_nat e) eqn:Hl; [eauto|].
  apply lookup_ge_None in Hl. cbn in Hl. lia.
Qed.

(** X2.  [mpv_event_name] knows exactly the event kinds 0 .. 15, and no two of
    them have the same name. *)
Theorem event_name_domain :
  (forall e, is_Some (mpv_event_name e) <-> 0 <= e <= 15) /\
  (forall e e' s, mpv_event_name e = Some s -> mpv_event_name e' = Some s ->
     e = e').
Proof.
  assert (forall e, is_Some (mpv_event_name e) -> 0 <= e <= 15) as Hdom.
  { intros e [s Hs]. unfold mpv_event_name in Hs.
    destruct (Z.ltb_spec e 0); [done|].
    destruct (Z.leb_spec (Z.of_nat (length event_table)) e); [done|].
    cbn in *. lia. }
  split.
  - intros e. split; [apply Hdom|].
    intros He. destruct (mpv_event_name_table e He) as (s & -> & _). eauto.
  - intros e e' s Hs Hs'.
    destruct (mpv_event_name_table e (Hdom e (mk_is_Some _ _ Hs)))
      as (s1 & H1 & Hl).
    destruct (mpv_event_name_table e' (Hdom e' (mk_is_Some _ _ Hs')))
      as (s2 & H2 & Hl').
    rewrite Hs in H1. rewrite Hs' in H2. simplify_eq.
    pose proof (NoDup_lookup _ _ _ _ NoDup_event_table Hl Hl').
    pose proof (Hdom e (mk_is_Some _ _ Hs)).
    pose proof (Hdom e' (mk_is_Some _ _ Hs')). lia.
Qed.

(** ** The event mask, bit by bit *)

Lemma mask_has_testbit mask id :
  0 <= id -> mask_has mask id = Z.testbit mask id.
Proof.
  intros Hid. unfold mask_has. rewrite Z.shiftl_1_l.
  destruct (Z.testbit mask id) eqn:Hb.
  - apply negb_true_iff, Z.eqb_neq. intros H0.
    assert (Z.testbit (Z.land mask (2 ^ id)) id = true) as Ht
      by (by rewrite Z.land_spec, Hb, Z.pow2_bits_true).
    rewrite H0, Z.bits_0 in Ht. done.
  - apply negb_false_iff, Z.eqb_eq, Z.bits_inj'. intros n Hn.
    rewrite Z.land_spec, Z.bits_0, Z.pow2_bits_eqb by done.
    destruct (Z.eqb_spec id n) as [->|]; [by rewrite Hb|].
    apply andb_false_r.
Qed.

Lemma UINT64_MAX_testbit id :
  0 <= id < 64 -> Z.testbit UINT64_MAX id = true.
Proof.
  intros Hid. change UINT64_MAX with (Z.ones 64).
  apply Z.ones_spec_low. lia.
Qed.

(** X3.  [mpv_request_event] refuses an event kind without a name and an
    [enable] other than 0 and 1, returning [MPV_ERROR_INVALID_PARAMETER]
    with the handle as it was.  Otherwise it returns 0, sets the mask bit of
    the kind to [enable], and changes no other bit and nothing else in the
    handle; after a kind is turned off, [send_event] of that kind does
    nothing. *)
Theorem request_event_sets_bit h event enable :
  (mpv_event_name event = None \/ enable < 0 \/ 1 < enable ->
     mpv_request_event h event enable = (MPV_ERROR_INVALID_PARAMETER, h)) /\
  (0 <= event <= 15 -> enable = 0 \/ enable = 1 ->
     exists mask,
       mpv_request_event h event enable = (0, set_event_mask mask h) /\
       mask_has mask event = (enable =? 1) /\
       (forall id, 0 <= id < 64 -> id <> event ->
          mask_has mask id = mask_has (event_mask h) id) /\
       (enable = 0 -> forall e, event_id e = event ->
          send_event (set_event_mask mask h) e =
            Done (0, set_event_mask mask h))).
Proof.
  split.
  - intros H. unfold mpv_request_event.
    destruct (mpv_event_name event); [|done].
    destruct H as [H|H]; [done|].
    destruct (Z.ltb_spec enable 0); [done|].
    destruct (Z.ltb_spec 1 enable); [done | lia].
  - intros Hev Hen. unfold mpv_request_event.
    destruct (mpv_event_name_table event Hev) as (s & -> & _).
    destruct (Z.ltb_spec enable 0); [lia|].
    destruct (Z.ltb_spec 1 enable); [lia|]. cbn [orb].
    eexists. split; [reflexivity|].
    assert (mask_has
              (if negb (enable =? 0)
               then Z.lor (event_mask h) (Z.shiftl 1 event)
               else Z.land (event_mask h)
                      (Z.lxor UINT64_MAX (Z.shiftl 1 event)))
              event = (enable =? 1)) as Hbit.
    { rewrite mask_has_testbit by lia. rewrite Z.shiftl_1_l.
      destruct Hen as [-> | ->]; cbn [Z.eqb negb].
      - rewrite Z.land_spec, Z.lxor_spec, Z.pow2_bits_true by lia.
        rewrite UINT64_MAX_testbit by lia. apply andb_false_r.
      - rewrite Z.lor_spec, Z.pow2_bits_true by lia. apply orb_true_r. }
    split; [exact Hbit|]. split.
    + intros id Hid Hne. rewrite !mask_has_testbit by lia.
      rewrite Z.shiftl_1_l.
      destruct Hen as [-> | ->]; cbn [Z.eqb negb].
      * rewrite Z.land_spec, Z.lxor_spec, Z.pow2_bits_false by lia.
        rewrite UINT64_MAX_testbit by lia. apply andb_true_r.
      * rewrite Z.lor_spec, Z.pow2_bits_false by lia. apply orb_false_r.
    + intros -> e <-. apply send_event_masked. cbn [event_mask].
      exact Hbit.
Qed.

(** X4.  A client starts with every event kind enabled except TICK: of the kinds
    0 .. 63, [send_event] writes every one but TICK to the ring of a new
    client, and does nothing for TICK. *)
Theorem new_client_mask nm :
  (forall id, 0 <= id < 64 ->
     mask_has (event_mask (new_handle nm)) id =
       negb (id =? MPV_EVENT_TICK)) /\
  (forall e, event_id e = MPV_EVENT_TICK ->
     send_event (new_handle nm) e = Done (0, new_handle nm)) /\
  (forall e, 0 <= event_id e < 64 -> event_id e <> MPV_EVENT_TICK ->
     send_event (new_handle nm) e =
       Done (0, wakeup_client (ring_push e (new_handle nm)))).
Proof.
  assert (forall id, 0 <= id < 64 ->
            mask_has (event_mask (new_handle nm)) id =
              negb (id =? MPV_EVENT_TICK)) as Hmask.
  { intros id Hid. rewrite mask_has_testbit by lia. cbn [event_mask new_handle].
    rewrite Z.land_spec, Z.lxor_spec, Z.shiftl_1_l.
    rewrite UINT64_MAX_testbit by lia. unfold MPV_EVENT_TICK. cbn [andb].
    destruct (Z.eqb_spec id 5) as [->|Hne].
    - by rewrite Z.pow2_bits_true.
    - by rewrite Z.pow2_bits_false. }
  split; [exact Hmask|]. split.
  - intros e He. apply send_event_masked. rewrite He.
    rewrite Hmask by (unfold MPV_EVENT_TICK; lia). done.
  - intros e He Hne. pose proof esize_pos as Hp.
    apply send_event_written.
    + rewrite Hmask by done.
      by destruct (Z.eqb_spec (event_id e) MPV_EVENT_TICK).
    + cbn. lia.
    + unfold mp_ring_available, mp_ring_buffered. cbn.
      rewrite Z.mul_0_r, Z.sub_0_r, Z.div_mul by lia. lia.
Qed.

(** ** The ring and the reservations *)

Lemma send_event_done_ring h e r h' :
  send_event h e = Done (r, h') ->
  (r = 0 /\ h' = h) \/
  (r = -1 /\ h' = choke_warn h /\
   mp_ring_available (events h) / esize <= reserved_events h) \/
  (r = 0 /\ h' = wakeup_client (ring_push e h) /\
   esize <= mp_ring_available (events h) /\
   reserved_events h < mp_ring_available (events h) / esize).
Proof.
  pose proof esize_pos as Hp. unfold send_event.
  destruct (mask_has (event_mask h) (event_id e)); cbn;
    [|intros [= <- <-]; auto].
  destruct (Z.ltb_spec (reserved_events h)
              (mp_ring_available (events h) / esize)); cbn.
  - unfold mp_ring_write.
    destruct (Z.leb_spec esize (mp_ring_available (events h))); cbn.
    + rewrite Z.eqb_refl. cbn.
      destruct (Z.eqb_spec esize 0); [lia|]. cbn.
      intros [= <- <-]. right; right. auto.
    + destruct (Z.eqb_spec (Z.max 0 (mp_ring_available (events h))) esize);
        cbn; [lia | done].
  - intros [= <- <-]. right; left. split; [done|]. split; [|done].
    unfold choke_warn. by destruct (choke_warning h).
Qed.

Lemma send_reply_done_fits h id e h' :
  send_reply h id e = Done h' -> esize <= mp_ring_available (events h).
Proof.
  pose proof esize_pos as Hp. unfold send_reply.
  destruct (Z.ltb_spec 0 (reserved_events h)); [|done]. cbn.
  unfold mp_ring_write.
  destruct (Z.leb_spec esize (mp_ring_available (events h))); [done|].
  cbn. destruct (Z.eqb_spec (Z.max 0 (mp_ring_available (events h))) esize);
    cbn; [lia | done].
Qed.

Lemma available_push e h :
  mp_ring_available (events (ring_push e h)) =
    mp_ring_available (events h) - esize.
Proof.
  unfold mp_ring_available, mp_ring_buffered. cbn.
  rewrite length_app. cbn. lia.
Qed.

Lemma available_pop r e rest :
  ring_buf r = e :: rest ->
  mp_ring_available (mk_ring (ring_size r) rest) =
    mp_ring_available r + esize.
Proof.
  intros H. unfold mp_ring_available, mp_ring_buffered. cbn.
  rewrite H. cbn [length]. lia.
Qed.

Lemma div_esize_step a :
  (a - esize) / esize = a / esize - 1 /\ (a + esize) / esize = a / esize + 1.
Proof.
  pose proof esize_pos as Hp. split.
  - replace (a - esize) with (a + (-1) * esize) by lia.
    rewrite Z.div_add by lia. lia.
  - replace (a + esize) with (a + 1 * esize) by lia.
    rewrite Z.div_add by lia. lia.
Qed.

(** What a step does to the ring: nothing, one record more at the end
    where there was room for it, or the first record taken off. *)
Lemma handle_step_ring h h' :
  handle_step h h' ->
  ring_size (events h') = ring_size (events h) /\
  (ring_buf (events h') = ring_buf (events h) \/
   (esize <= mp_ring_available (events h) /\
    exists e, ring_buf (events h') = ring_buf (events h) ++ [e]) \/
   (exists e, ring_buf (events h) = e :: ring_buf (events h'))).
Proof.
  destruct 1 as [h|h e r h' Hs|h id e h' Hs|h ev en|h lvl|h|h cb d|h
                |h t h' Hw|h t h' Hw|h|h buf entry Hm].
  - unfold reserve_reply. case_match; cbn; auto.
  - apply send_event_done_ring in Hs
      as [[_ ->]|[(_ & -> & _)|(_ & -> & Hfit & _)]].
    + auto.
    + destruct (choke_warn_fields h) as (_ & _ & _ & -> & _). auto.
    + destruct (wakeup_client_fields (ring_push e h))
        as (_ & _ & _ & _ & _ & _ & -> & _). cbn.
      split; [done|]. right; left. eauto.
  - pose proof (send_reply_done_fits _ _ _ _ Hs) as Hfit.
    apply send_reply_done in Hs as [_ ->].
    destruct (wakeup_client_fields
                (ring_push e (set_reserved_events (reserved_events h - 1) h)))
      as (_ & _ & _ & _ & _ & _ & -> & _). cbn.
      split; [done|]. right; left. eauto.
  - unfold mpv_request_event. repeat (case_match; cbn); auto.
  - unfold mpv_request_log_messages. repeat (case_match; cbn); auto.
  - unfold mpv_wakeup.
    destruct (wakeup_client_fields (set_queued_wakeup true h))
      as (_ & _ & _ & _ & _ & _ & -> & _). cbn. auto.
  - cbn. auto.
  - cbn. auto.
  - apply wait_turn_break in Hw. destruct Hw as [e rest Hb| | | |]; cbn;
      auto.
    split; [done|]. right; right. eauto.
  - apply wait_turn_sleep in Hw as [-> _]. auto.
  - cbn. auto.
  - cbn. auto.
Qed.

(** X5.  The ring of a client never holds more than its 1000 records: it has
    1000 times the size of a record, and what is buffered never exceeds
    that. *)
Theorem ring_never_overcommitted nm h :
  reachable nm h ->
  ring_size (events h) = 1000 * esize /\
  0 <= mp_ring_available (events h) /\
  Z.of_nat (length (ring_buf (events h))) <= max_events h.
Proof.
  intros Hr. pose proof esize_pos as Hp.
  assert (ring_size (events h) = 1000 * esize /\
          0 <= mp_ring_available (events h)) as [Hsz Hav].
  { revert h Hr. apply reachable_invariant.
    - unfold mp_ring_available, mp_ring_buffered. cbn. lia.
    - intros h h' [Hsz Hav] Hstep.
      apply handle_step_ring in Hstep as (Hsize & Hbuf).
      split; [by rewrite Hsize|].
      unfold mp_ring_available, mp_ring_buffered in *. rewrite Hsize.
      destruct Hbuf as [->|[[Hfit [e ->]]|[e Hpop]]].
      + done.
      + rewrite length_app. cbn. lia.
      + rewrite Hpop in Hav. cbn [length] in Hav. lia. }
  split; [done|]. split; [done|].
  destruct (reachable_bounds _ _ Hr) as [-> _].
  unfold mp_ring_available, mp_ring_buffered in Hav. nia.
Qed.

(** X6.  Unsolicited events never take a slot that a reservation counts on:
    once the reservations are covered by free slots, [send_event],
    [send_reply] and the turns of the wait loop keep them covered, and
    [send_reply] then returns for every reservation made. *)
Theorem reserved_slots_kept h :
  slots_ok h ->
  (forall e r h', send_event h e = Done (r, h') -> slots_ok h') /\
  (forall id e h', send_reply h id e = Done h' -> slots_ok h') /\
  (forall timeout h', wait_turn h timeout = Done (Break h') ->
     slots_ok h') /\
  (forall id e, 0 < reserved_events h ->
     exists h', send_reply h id e = Done h').
Proof.
  unfold slots_ok. intros Hok. pose proof esize_pos as Hp.
  split; [|split; [|split]].
  - intros e r h' Hs.
    apply send_event_done_ring in Hs
      as [[_ ->]|[(_ & -> & _)|(_ & -> & Hfit & Hlt)]].
    + done.
    + by destruct (choke_warn_fields h) as (_ & _ & _ & -> & _ & -> & _).
    + destruct (wakeup_client_fields (ring_push e h))
        as (_ & _ & _ & _ & _ & _ & -> & _ & -> & _).
      rewrite available_push. cbn.
      destruct (div_esize_step (mp_ring_available (events h))) as [-> _].
      lia.
  - intros id e h' Hs. apply send_reply_done in Hs as [Hpos ->].
    destruct (wakeup_client_fields
                (ring_push e (set_reserved_events (reserved_events h - 1) h)))
      as (_ & _ & _ & _ & _ & _ & -> & _ & -> & _).
    rewrite available_push. cbn.
    destruct (div_esize_step (mp_ring_available (events h))) as [-> _].
    lia.
  - intros timeout h' Hw. apply wait_turn_break in Hw.
    destruct Hw as [e rest Hb| | | |]; cbn; try done.
    rewrite (available_pop _ _ _ Hb).
    destruct (div_esize_step (mp_ring_available (events h))) as [_ ->].
    lia.
  - intros id e Hpos. eexists. apply send_reply_fits; [done|].
    apply (slots_fit _ (reserved_events h - 1)); lia.
Qed.

Lemma filled_fields n e h :
  name (filled n e h) = name h /\
  alloc_reply_id (filled n e h) = alloc_reply_id h /\
  event_mask (filled n e h) = event_mask h /\
  reserved_events (filled n e h) = reserved_events h /\
  max_events (filled n e h) = max_events h /\
  ring_size (events (filled n e h)) = ring_size (events h) /\
  ring_buf (events (filled n e h)) = ring_buf (events h) ++ replicate n e.
Proof.
  induction n as [|n IH].
  - cbn. by rewrite app_nil_r.
  - destruct IH as (IH1 & IH2 & IH3 & IH4 & IH5 & IH6 & IH7).
    change (filled (S n) e h)
      with (wakeup_client (ring_push e (filled n e h))).
    destruct (wakeup_client_fields (ring_push e (filled n e h)))
      as (-> & -> & -> & _ & _ & _ & -> & -> & -> & _).
    cbn. rewrite IH7. repeat split; try done.
    rewrite <- app_assoc. f_equal.
    change (replicate n e ++ [e] = replicate (S n) e).
    by rewrite replicate_S_end.
Qed.

(** X7.  [reserve_reply] does not look at the ring.  A client can fill its ring
    with 1000 unsolicited events; it still gets a reply ID for its next
    request, and the [send_reply] for that request then finds no room and
    calls [abort()]. *)
Theorem reply_on_full_ring :
  (forall h id e,
     0 <= reserved_events h < max_events h ->
     mp_ring_available (events h) < esize ->
     0 <= alloc_reply_id h < 2 ^ 63 - 1 ->
     (reserve_reply h).1 = alloc_reply_id h + 1 /\
     send_reply (reserve_reply h).2 id e = Abort) /\
  (forall nm e n, mask_has (event_mask (new_handle nm)) (event_id e) = true ->
     (n <= 1000)%nat -> reachable nm (filled n e (new_handle nm))) /\
  (forall nm e,
     mp_ring_available (events (filled 1000 e (new_handle nm))) = 0).
Proof.
  pose proof esize_pos as Hp. split; [|split].
  - intros h id e Hres Hfull Ha.
    destruct (reserve_reply_next h Ha) as (H1 & _ & _); [lia|].
    split; [done|].
    unfold reserve_reply.
    destruct (Z.ltb_spec (reserved_events h) (max_events h)); [|lia].
    unfold send_reply. cbn.
    destruct (Z.ltb_spec 0 (reserved_events h + 1)); [|lia]. cbn.
    unfold mp_ring_write.
    destruct (Z.leb_spec esize (mp_ring_available (events h))); [lia|].
    cbn.
    destruct (Z.eqb_spec (Z.max 0 (mp_ring_available (events h))) esize);
      [lia | done].
  - intros nm e n Hmask. induction n as [|n IH]; intros Hn.
    + apply rtc_refl.
    + eapply rtc_r; [apply IH; lia|].
      change (filled (S n) e (new_handle nm))
        with (wakeup_client (ring_push e (filled n e (new_handle nm)))).
      destruct (filled_fields n e (new_handle nm))
        as (_ & _ & Hm & Hr & _ & Hsz & Hbuf).
      eapply step_send_event. apply send_event_written.
      * by rewrite Hm.
      * rewrite Hr. cbn. lia.
      * rewrite Hr. unfold mp_ring_available, mp_ring_buffered.
        rewrite Hsz, Hbuf, length_app, length_replicate. cbn.
        replace (1000 * esize - esize * Z.of_nat n)
          with ((1000 - Z.of_nat n) * esize) by lia.
        rewrite Z.div_mul by lia. lia.
  - intros nm e.
    destruct (filled_fields 1000 e (new_handle nm))
      as (_ & _ & _ & _ & _ & Hsz & Hbuf).
    unfold mp_ring_available, mp_ring_buffered.
    rewrite Hsz, Hbuf, length_app, length_replicate. cbn. lia.
Qed.

(** ** A reservation and its reply *)

(** X8.  A reservation followed by its reply leaves [reserved_events] where it
    was and one more record in the ring.  When every slot is reserved,
    [reserve_reply] returns [MPV_ERROR_EVENT_BUFFER_FULL]; after any one
    reply it gives out the next ID again. *)
Theorem reserve_then_reply h :
  (forall id e, 0 <= reserved_events h < max_events h ->
     esize <= mp_ring_available (events h) ->
     exists h', send_reply (reserve_reply h).2 id e = Done h' /\
       reserved_events h' = reserved_events h /\
       ring_buf (events h') = ring_buf (events h) ++ [e]) /\
  (reserved_events h = max_events h ->
     reserve_reply h = (MPV_ERROR_EVENT_BUFFER_FULL, h) /\
     forall id e h', send_reply h id e = Done h' ->
       0 <= alloc_reply_id h < 2 ^ 63 - 1 ->
       (reserve_reply h').1 = alloc_reply_id h + 1).
Proof.
  split.
  - intros id e Hres Hfit. unfold reserve_reply.
    destruct (Z.ltb_spec (reserved_events h) (max_events h)); [|lia].
    cbn [snd].
    set (h1 := set_alloc_reply_id _ _).
    assert (reserved_events h1 = reserved_events h + 1) as Hr1 by done.
    assert (events h1 = events h) as Hev1 by done.
    rewrite (send_reply_fits h1 id e) by (rewrite ?Hr1, ?Hev1; lia).
    eexists. split; [reflexivity|].
    destruct (wakeup_client_fields
                (ring_push e
                   (set_reserved_events (reserved_events h1 - 1) h1)))
      as (_ & _ & _ & _ & _ & _ & -> & _ & -> & _).
    cbn. split; [lia | done].
  - intros Hfull. split.
    + unfold reserve_reply.
      destruct (Z.ltb_spec (reserved_events h) (max_events h)); [lia|done].
    + intros id e h' Hs Ha. apply send_reply_done in Hs as [Hpos ->].
      destruct (wakeup_client_fields
                  (ring_push e
                     (set_reserved_events (reserved_events h - 1) h)))
        as (_ & Halloc & _ & _ & _ & _ & _ & Hmax & Hres & _).
      cbn in Halloc, Hmax, Hres.
      match goal with
      | |- (reserve_reply ?x).1 = _ =>
        destruct (reserve_reply_next x) as (Hn & _)
      end; [by rewrite Halloc | rewrite Hres, Hmax; lia |].
      by rewrite Hn, Halloc.
Qed.

(** ** Shutdown and wakeup *)

Lemma handle_step_shutdown h h' :
  handle_step h h' -> shutdown h = true -> shutdown h' = true.
Proof.
  destruct 1 as [h|h e r h' Hs|h id e h' Hs|h ev en|h lvl|h|h cb d|h
                |h t h' Hw|h t h' Hw|h|h buf entry Hm]; intros Hsd.
  - unfold reserve_reply. by case_match.
  - apply send_event_done in Hs as [[_ ->]|[[_ ->]|[_ ->]]].
    + done.
    + by destruct (wakeup_client_fields (ring_push e h))
        as (_ & _ & _ & _ & -> & _).
    + unfold choke_warn. by destruct (choke_warning h).
  - apply send_reply_done in Hs as [_ ->].
    by destruct (wakeup_client_fields
                   (ring_push e
                      (set_reserved_events (reserved_events h - 1) h)))
      as (_ & _ & _ & _ & -> & _).
  - unfold mpv_request_event. by repeat (case_match; cbn).
  - unfold mpv_request_log_messages. by repeat (case_match; cbn).
  - unfold mpv_wakeup.
    by destruct (wakeup_client_fields (set_queued_wakeup true h))
      as (_ & _ & _ & _ & -> & _).
  - done.
  - done.
  - apply wait_turn_break in Hw. by destruct Hw.
  - by apply wait_turn_sleep in Hw as [-> _].
  - done.
  - done.
Qed.

(** X9.  Nothing in the file lowers the shutdown flag.  Once it is raised, every
    [mpv_wait_event] returns without sleeping, whatever the timeout, with
    the next buffered event if there is one and a SHUTDOWN event
    otherwise. *)
Theorem shutdown_is_final h h' :
  rtc handle_step h h' -> shutdown h = true ->
  shutdown h' = true /\
  forall env timeout,
    exists ev h'',
      mpv_wait_event env h' timeout = Done (Some (ev, h'')) /\
      shutdown h'' = true /\
      (forall e rest, ring_buf (events h') = e :: rest -> ev = e) /\
      (ring_buf (events h') = [] ->
       ev = set_event_id MPV_EVENT_SHUTDOWN zero_event).
Proof.
  intros Hsteps Hsd.
  assert (shutdown h' = true) as Hsd'.
  { induction Hsteps as [|x y z Hs _ IH]; [done|].
    apply IH. by eapply handle_step_shutdown. }
  split; [done|]. intros env timeout. unfold mpv_wait_event.
  destruct (ring_buf (events h')) as [|e rest] eqn:Hbuf.
  - rewrite (wait_loop_break env (wait_enter h') timeout _
               (wait_turn_shutdown (wait_enter h') _ Hbuf Hsd')).
    eexists _, _. split; [reflexivity|]. cbn. by repeat split.
  - rewrite (wait_loop_break env (wait_enter h') timeout _
               (wait_turn_ring (wait_enter h') _ e rest Hbuf)).
    eexists _, _. split; [reflexivity|]. cbn.
    split; [done|]. split; [by intros ? ? [= <- _] | done].
Qed.

(** X10.  A wakeup is never lost: after [mpv_wakeup], the next [mpv_wait_event]
    returns without sleeping, whatever its timeout, and with a NONE event
    when nothing else is pending. *)
Theorem wakeup_not_lost h env timeout :
  exists ev h',
    mpv_wait_event env (mpv_wakeup h) timeout = Done (Some (ev, h')) /\
    (ring_buf (events h) = [] -> shutdown h = false ->
     (messages h = None \/ messages h = Some []) -> ev = zero_event).
Proof.
  unfold mpv_wait_event, mpv_wakeup.
  destruct (wakeup_client_fields (set_queued_wakeup true h))
    as (_ & _ & _ & Hq & Hsd & _ & Hev & _ & _ & Hmsg & _).
  cbn in Hq, Hsd, Hev, Hmsg.
  set (h1 := wait_enter (wakeup_client (set_queued_wakeup true h))).
  assert (queued_wakeup h1 = true) as Hq1 by exact Hq.
  destruct (wait_turn_total h1 timeout) as [[h2|h2] Ht].
  - rewrite (wait_loop_break env h1 timeout h2 Ht).
    eexists _, _. split; [reflexivity|].
    intros Hbuf Hs Hm. cbn. apply wait_turn_break in Ht.
    assert (ring_buf (events h1) = []) as Hbuf1
      by (change (events h1) with
            (events (wakeup_client (set_queued_wakeup true h)));
          by rewrite Hev).
    assert (shutdown h1 = false) as Hs1
      by (change (shutdown h1) with
            (shutdown (wakeup_client (set_queued_wakeup true h)));
          by rewrite Hsd).
    assert (messages h1 = messages h) as Hm1 by exact Hmsg.
    destruct Ht as [e rest Hb|? Hs2|msg buf ? ? Hm2| |]; cbn; try done.
    + by rewrite Hbuf1 in Hb.
    + by rewrite Hs1 in Hs2.
    + rewrite Hm1 in Hm2. by destruct Hm as [Hm|Hm]; rewrite Hm in Hm2.
  - apply wait_turn_sleep in Ht as (_ & _ & _ & Hq2 & _).
    by rewrite Hq1 in Hq2.
Qed.

(** ** Who owns the data of a delivered event *)

Lemma frees_Freed l : frees (map Freed l) = l.
Proof. induction l as [|x l IH]; cbn; by rewrite ?IH. Qed.

Lemma wait_loop_scratch env h timeout h' :
  Forall keeps_scratch env ->
  cur_event_children h = [] -> data (cur_event h) = NULL ->
  wait_loop env h timeout = Done (Some h') ->
  frees (effects h') = frees (effects h) /\
  cur_event_children h' = talloc_steal [] (data (cur_event h')).
Proof.
  intros Henv. revert h.
  induction Henv as [|f env Hf Henv IH]; intros h Hch Hd Hl; cbn in Hl;
    destruct (wait_turn h timeout) as [[h1|h1]| | |] eqn:Ht; try done.
  - injection Hl as ->. apply wait_turn_break in Ht.
    destruct Ht; cbn; rewrite ?Hch, ?Hd; done.
  - injection Hl as ->. apply wait_turn_break in Ht.
    destruct Ht; cbn; rewrite ?Hch, ?Hd; done.
  - apply wait_turn_sleep in Ht as [-> _].
    destruct (Hf h) as (Hc & Hk & Hfr).
    rewrite <- Hfr. apply IH; [by rewrite Hk | by rewrite Hc | done].
Qed.

(** X11.  The data of the event that [mpv_wait_event] returns belongs to the
    handle: it is the one child of the scratch event, nothing frees it
    during the call, and the next [mpv_wait_event] on the handle frees it,
    once, before it does anything else. *)
Theorem wait_event_owns_data env h timeout ev h' :
  Forall keeps_scratch env ->
  mpv_wait_event env h timeout = Done (Some (ev, h')) ->
  frees (effects h') = frees (effects h) ++ cur_event_children h /\
  cur_event_children h' = talloc_steal [] (data ev) /\
  frees (effects (wait_enter h')) =
    frees (effects h') ++ talloc_steal [] (data ev).
Proof.
  intros Henv Hw. unfold mpv_wait_event in Hw.
  destruct (wait_loop env (wait_enter h) timeout) as [[h1|]| | |] eqn:Hl;
    cbn in Hw; try done.
  injection Hw as <- <-.
  apply wait_loop_scratch in Hl as [Hfr Hch]; [|done..].
  cbn in Hfr. rewrite frees_app, frees_Freed in Hfr.
  cbn. rewrite frees_app, frees_Freed, Hfr, Hch. done.
Qed.

(** ** The loop of the example client *)

Lemma wait_event_head_shutdown h e rest timeout :
  ring_buf (events h) = e :: rest ->
  exists h', mpv_wait_event [] h timeout = Done (Some (e, h')) /\
             shutdown h' = shutdown h /\ ring_buf (events h') = rest.
Proof.
  intros Hbuf. unfold mpv_wait_event.
  rewrite (wait_loop_break [] (wait_enter h) timeout _
             (wait_turn_ring (wait_enter h) _ e rest Hbuf)).
  eexists. split; [reflexivity|]. done.
Qed.


(** ** Registering, finding and destroying a client *)

Lemma handle_at_None cs p :
  Forall (fun c : nat * mpv_handle => (c.1 < p)%nat) cs ->
  handle_at cs p = None.
Proof.
  induction 1 as [|[q h] cs Hq _ IH]; [done|]. cbn in *.
  destruct (Nat.eqb_spec q p); [lia | done].
Qed.

Lemma handle_at_app cs p h q :
  handle_at (cs ++ [(p, h)]) q =
    match handle_at cs q with
    | Some x => Some x
    | None => if Nat.eqb p q then Some h else None
    end.
Proof.
  induction cs as [|[p0 h0] cs IH]; cbn; [done|].
  by destruct (Nat.eqb p0 q).
Qed.

Lemma find_client_app cs p h nm :
  find_client (cs ++ [(p, h)]) nm =
    match find_client cs nm with
    | Some x => Some x
    | None => if String.eqb (name h) nm then Some p else None
    end.
Proof.
  induction cs as [|[p0 h0] cs IH]; cbn; [done|].
  by destruct (String.eqb (name h0) nm).
Qed.

Lemma remove_client_app cs p h :
  handle_at cs p = None ->
  remove_client (cs ++ [(p, h)]) p = Some (h, cs).
Proof.
  induction cs as [|[p0 h0] cs IH]; cbn.
  - by rewrite Nat.eqb_refl.
  - destruct (Nat.eqb p0 p); [done|]. intros H. by rewrite IH.
Qed.

Lemma mp_new_client_cases m nm :
  mp_new_client m nm = (None, m) \/
  exists u, (u ∉ client_names (clients m)) /\
            mp_new_client m nm = (Some (next_client m), register u m).
Proof.
  unfold mp_new_client.
  destruct (find_client (clients m) nm) eqn:Hf.
  - destruct (unique_name_loop (clients m) nm 2 998) as [u|] eqn:Hu;
      [|by left].
    right. exists u. split; [|done]. by eapply unique_name_loop_free.
  - right. exists nm. split; [|done]. by apply find_client_None.
Qed.

(** X13.  A client that [mp_new_client] registers gets an address of its own and
    is found under the name it was given, as a handle in its initial state;
    the clients registered before stay what they were, and there is one
    client more.  When the call fails the context is as before. *)
Theorem new_client_found m nm p m' :
  fresh_alloc m ->
  mp_new_client m nm = (p, m') ->
  match p with
  | None => m' = m
  | Some p =>
    exists u,
      mpv_client_name m' p = Done u /\
      find_client (clients m') u = Some p /\
      handle_at (clients m') p = Some (new_handle u) /\
      mp_clients_num m' = S (mp_clients_num m) /\
      (forall q hq, handle_at (clients m) q = Some hq ->
         handle_at (clients m') q = Some hq) /\
      fresh_alloc m'
  end.
Proof.
  intros Hfresh Hnew.
  destruct (mp_new_client_cases m nm) as [Hc|(u & Hu & Hc)];
    rewrite Hc in Hnew; injection Hnew as <- <-; [done|].
  pose proof (handle_at_None _ _ Hfresh) as Hnone.
  assert (handle_at (clients (register u m)) (next_client m) =
            Some (new_handle u)) as Hat.
  { cbn. rewrite handle_at_app, Hnone. by rewrite Nat.eqb_refl. }
  exists u. split; [|split; [|split; [|split; [|split]]]].
  - unfold mpv_client_name, deref. by rewrite Hat.
  - cbn. rewrite find_client_app.
    apply find_client_None in Hu. rewrite Hu. cbn.
    by rewrite String.eqb_refl.
  - exact Hat.
  - unfold mp_clients_num, num_clients. cbn. rewrite length_app. cbn. lia.
  - intros q hq Hq. cbn. by rewrite handle_at_app, Hq.
  - unfold fresh_alloc in *. cbn. apply Forall_app. split.
    + eapply Forall_impl; [exact Hfresh|]. cbn. lia.
    + apply Forall_singleton. cbn. lia.
Qed.

Lemma remove_client_spec cs ctx :
  match remove_client cs ctx with
  | Some (h, cs') =>
    handle_at cs ctx = Some h /\ length cs = S (length cs') /\
    (forall q, q <> ctx -> handle_at cs' q = handle_at cs q) /\
    (NoDup (map fst cs) -> handle_at cs' ctx = None)
  | None => handle_at cs ctx = None
  end.
Proof.
  induction cs as [|[p h] cs IH]; cbn; [done|].
  destruct (Nat.eqb_spec p ctx) as [->|Hne].
  - split; [done|]. split; [done|]. split.
    + intros q Hq. by destruct (Nat.eqb_spec ctx q); [congruence|].
    + intros Hnd. apply NoDup_cons in Hnd as [Hnin _].
      destruct (handle_at cs ctx) eqn:Hat; [|done].
      exfalso. apply Hnin. clear -Hat.
      induction cs as [|[q hq] cs IH]; [done|]. cbn in *.
      destruct (Nat.eqb_spec q ctx) as [->|];
        [apply list_elem_of_here | apply list_elem_of_further; auto].
  - destruct (remove_client cs ctx) as [[h' cs']|]; [|done].
    destruct IH as (Hat & Hlen & Hother & Hgone).
    split; [done|]. split; [cbn; lia|]. split.
    + intros q Hq. cbn. destruct (Nat.eqb p q); [done|]. by apply Hother.
    + intros Hnd. apply NoDup_cons in Hnd as [_ Hnd]. cbn.
      destruct (Nat.eqb_spec p ctx); [done|]. by apply Hgone.
Qed.


(** X15.  Creating a client and destroying it again gives back the registry as
    it was, and frees nothing. *)
Theorem new_then_destroy m nm p m' :
  fresh_alloc m ->
  mp_new_client m nm = (Some p, m') ->
  exists m'', mpv_destroy m' p = Done m'' /\
    clients m'' = clients m /\ freed m'' = freed m /\
    mp_clients_num m'' = mp_clients_num m.
Proof.
  intros Hfresh Hnew.
  destruct (mp_new_client_cases m nm) as [Hc|(u & Hu & Hc)];
    rewrite Hc in Hnew; [done|]. injection Hnew as <- <-.
  unfold mpv_destroy. cbn.
  rewrite remove_client_app by by apply handle_at_None.
  eexists. split; [reflexivity|]. cbn. by rewrite app_nil_r.
Qed.

(** ** A broadcast, client by client *)

Lemma broadcast_loop_each cs ev cs' :
  broadcast_loop cs ev = Done cs' ->
  Forall2 (fun c c' =>
             c'.1 = c.1 /\
             (exists r, send_event c.2 ev = Done (r, c'.2)) /\
             (ring_buf (events c'.2) = ring_buf (events c.2) \/
              ring_buf (events c'.2) = ring_buf (events c.2) ++ [ev]))
    cs cs'.
Proof.
  revert cs'. induction cs as [|[p h] cs IH]; intros cs'; cbn.
  - intros [= <-]. constructor.
  - destruct (send_event h ev) as [[r h']| | |] eqn:Hs; cbn; try done.
    destruct (broadcast_loop cs ev) as [cs1| | |]; cbn; try done.
    intros [= <-]. constructor; [|by apply IH]. cbn.
    split; [done|]. split; [eauto|].
    apply send_event_done in Hs as [[_ ->]|[[_ ->]|[_ ->]]].
    + by left.
    + right.
      by destruct (wakeup_client_fields (ring_push ev h))
        as (_ & _ & _ & _ & _ & _ & -> & _).
    + left. by destruct (choke_warn_fields h) as (_ & _ & _ & -> & _).
Qed.

(** X16.  A broadcast treats each client on its own: every client is left as
    [send_event] alone leaves it, at its place in the registry, so a client
    that is choked or has the kind turned off changes nothing for the
    others.  The record a client takes has [in_reply_to = 0], [error = 0]
    and, as its data, the pointer that the broadcast frees before it
    returns. *)
Theorem broadcast_per_client m event d m' :
  mp_client_broadcast_event m event d = Done m' ->
  let record := mk_event 0 event 0 d in
  Forall2 (fun c c' =>
             c'.1 = c.1 /\
             (exists r, send_event c.2 record = Done (r, c'.2)) /\
             (ring_buf (events c'.2) = ring_buf (events c.2) \/
              ring_buf (events c'.2) = ring_buf (events c.2) ++ [record]))
    (clients m) (clients m') /\
  mp_clients_num m' = mp_clients_num m /\
  d ∈ freed m'.
Proof.
  unfold mp_client_broadcast_event.
  destruct (broadcast_loop (clients m) (mk_event 0 event 0 d))
    as [cs| | |] eqn:Hb; cbn; try done.
  intros [= <-]. apply broadcast_loop_each in Hb. cbn.
  split; [done|]. split.
  - unfold mp_clients_num, num_clients. cbn.
    by apply Forall2_length in Hb.
  - apply elem_of_app. right. apply list_elem_of_here.
Qed.

(** ** Requests, from submission to reply *)

Lemma store_at_same cs ctx h :
  handle_at cs ctx = Some h -> store_at cs ctx h = cs.
Proof.
  induction cs as [|[p h0] cs IH]; cbn; [done|].
  destruct (Nat.eqb p ctx).
  - by intros [= ->].
  - intros H. by rewrite IH.
Qed.

Lemma handle_at_store cs ctx h h' :
  handle_at cs ctx = Some h -> handle_at (store_at cs ctx h') ctx = Some h'.
Proof.
  induction cs as [|[p h0] cs IH]; cbn; [done|].
  destruct (Nat.eqb p ctx) eqn:Hp; cbn; rewrite Hp; [done | apply IH].
Qed.

Lemma store_same m ctx h :
  handle_at (clients m) ctx = Some h -> store m ctx h = m.
Proof.
  intros H. unfold store, set_clients. rewrite (store_at_same _ _ _ H).
  by destruct m.
Qed.

Lemma queue_process_empty m :
  dispatch m = [] -> mp_dispatch_queue_process m = Done m.
Proof.
  intros H. unfold mp_dispatch_queue_process, set_dispatch. rewrite H.
  cbn. rewrite <- H. by destruct m.
Qed.

Lemma on_client_send_reply m ctx h id e :
  handle_at (clients m) ctx = Some h ->
  0 < reserved_events h ->
  esize <= mp_ring_available (events h) ->
  on_client m ctx (fun h => send_reply h id e) =
    Done (store m ctx (replied e h)).
Proof.
  intros Hat Hpos Hfit. unfold on_client, deref. rewrite Hat.
  cbn [mbind outcome_bind]. by rewrite send_reply_fits.
Qed.

Lemma run_async_full m ctx h mk :
  handle_at (clients m) ctx = Some h ->
  max_events h <= reserved_events h ->
  run_async m ctx mk = Done (MPV_ERROR_EVENT_BUFFER_FULL, m).
Proof.
  intros Hat Hfull. unfold run_async, deref. rewrite Hat.
  cbn [mbind outcome_bind]. unfold reserve_reply.
  destruct (Z.ltb_spec (reserved_events h) (max_events h)); [lia|].
  cbn. by rewrite (store_same _ _ _ Hat).
Qed.

(** X17.  A client that has all its slots reserved gets
    [MPV_ERROR_EVENT_BUFFER_FULL] (-1) from each asynchronous entry point
    at once, with nothing queued and the context as it was. *)
Theorem async_buffer_full m ctx h :
  handle_at (clients m) ctx = Some h ->
  initialized m = true ->
  max_events h <= reserved_events h ->
  (forall args cmd, mp_input_parse_cmd_strv E args "<client>" = Some cmd ->
     mpv_command_async m ctx args = Done (-1, m)) /\
  (forall nm d,
     mpv_set_property_async m ctx nm MPV_FORMAT_STRING d = Done (-1, m)) /\
  (forall nm format,
     mpv_get_property_async m ctx nm format = Done (-1, m)).
Proof.
  intros Hat Hi Hfull.
  unfold mpv_command_async, mpv_set_property_async, mpv_get_property_async,
    deref.
  rewrite Hat, Hi. cbn [mbind outcome_bind negb].
  split; [|split].
  - intros args cmd ->. by apply run_async_full with h.
  - intros nm d. cbn. by apply run_async_full with h.
  - intros nm format. by apply run_async_full with h.
Qed.

Lemma run_async_accepted m ctx h mk :
  handle_at (clients m) ctx = Some h ->
  reserved_events h < max_events h ->
  0 <= alloc_reply_id h < 2 ^ 63 - 1 ->
  run_async m ctx mk =
    Done (alloc_reply_id h + 1,
          set_dispatch (dispatch m ++ [mk (alloc_reply_id h + 1)])
            (store m ctx (reserve_reply h).2)).
Proof.
  intros Hat Hres Ha. unfold run_async, deref. rewrite Hat.
  cbn [mbind outcome_bind].
  destruct (reserve_reply_next h Ha Hres) as (Hid & _).
  destruct (reserve_reply h) as [id h1]. cbn in Hid. subst id.
  destruct (Z.ltb_spec (alloc_reply_id h + 1) 0); [lia | done].
Qed.



(** X20.  [mpv_command] reports a command that does not parse with
    [MPV_ERROR_INVALID_PARAMETER], running nothing; a command that parses
    is run and the result is 0 whatever it did. *)
Theorem command_result m ctx h args :
  handle_at (clients m) ctx = Some h ->
  initialized m = true ->
  dispatch m = [] ->
  mpv_command m ctx args =
    match mp_input_parse_cmd_strv E args (name h) with
    | None => Done (MPV_ERROR_INVALID_PARAMETER, m)
    | Some cmd => Done (0, set_engine (run_command E (engine m) cmd) m)
    end.
Proof.
  intros Hat Hi Hd. unfold mpv_command, deref, run_client_command.
  rewrite Hat, Hi. cbn [mbind outcome_bind negb].
  destruct (mp_input_parse_cmd_strv E args (name h)) as [cmd|]; [|done].
  unfold run_locked. rewrite (queue_process_empty _ Hd). done.
Qed.

(** ** Results of property and option access *)

(** X21.  The status of a property access is 0 exactly when [mp_property_do]
    reported [M_PROPERTY_OK]; otherwise it is one of
    [MPV_ERROR_PROPERTY], [MPV_ERROR_PROPERTY_UNAVAILABLE] and
    [MPV_ERROR_NOT_FOUND].  [mpv_set_property] on an initialized engine
    with a string value returns that status, after one call of
    [mp_property_do] with the action 0 and no context. *)
Theorem set_property_result :
  (forall errc,
     (translate_property_error errc = 0 <-> errc = M_PROPERTY_OK E) /\
     (translate_property_error errc = 0 \/
      translate_property_error errc = MPV_ERROR_PROPERTY \/
      translate_property_error errc = MPV_ERROR_PROPERTY_UNAVAILABLE \/
      translate_property_error errc = MPV_ERROR_NOT_FOUND)) /\
  (forall m ctx h nm d,
     handle_at (clients m) ctx = Some h ->
     initialized m = true -> dispatch m = [] ->
     mpv_set_property m ctx nm MPV_FORMAT_STRING d =
       Done (translate_property_error
               (mp_property_do E nm 0 d false (engine m)).1.1,
             set_engine (mp_property_do E nm 0 d false (engine m)).2 m)).
Proof.
  split.
  - intros errc. unfold translate_property_error.
    destruct (Z.eqb_spec errc (M_PROPERTY_OK E)) as [Hok|Hne];
      [split; [split; auto | auto]|].
    unfold MPV_ERROR_PROPERTY, MPV_ERROR_PROPERTY_UNAVAILABLE,
      MPV_ERROR_NOT_FOUND.
    repeat case_match;
      (split; [split; [intros [=] | intros ?; by subst] | auto]).
  - intros m ctx h nm d Hat Hi Hd.
    unfold mpv_set_property, deref. rewrite Hat, Hi.
    cbn [mbind outcome_bind negb Z.eqb MPV_FORMAT_STRING Pos.eqb].
    unfold run_locked. rewrite (queue_process_empty _ Hd).
    cbn [mbind outcome_bind]. unfold setproperty_fn.
    cbn [sp_name sp_cmd sp_data sp_mpctx].
    destruct (mp_property_do E nm 0 d false (engine m)) as [[err out] st].
    done.
Qed.

(** X22.  Before the engine is initialized [mpv_set_option] hands a string value
    to the configuration and returns 0, [MPV_ERROR_NOT_FOUND] or
    [MPV_ERROR_INVALID_PARAMETER], never a positive value and never
    [MPV_ERROR_UNINITIALIZED]; any other format is refused without the
    configuration being touched; clients and dispatch queue stay as they
    were.  After initialization it is [mpv_set_property] on the name as
    given. *)
Theorem set_option_result m ctx h nm format d :
  handle_at (clients m) ctx = Some h ->
  (initialized m = true ->
     mpv_set_option m ctx nm format d = mpv_set_property m ctx nm format d) /\
  (initialized m = false -> format <> MPV_FORMAT_STRING ->
     mpv_set_option m ctx nm format d =
       Done (MPV_ERROR_INVALID_PARAMETER, m)) /\
  (initialized m = false -> format = MPV_FORMAT_STRING ->
     exists r,
       mpv_set_option m ctx nm format d =
         Done (r, set_engine (m_config_set_option0 (engine m) nm d).2 m) /\
       (r = 0 \/ r = MPV_ERROR_NOT_FOUND \/
        r = MPV_ERROR_INVALID_PARAMETER) /\
       (r = 0 -> 0 <= (m_config_set_option0 (engine m) nm d).1)).
Proof.
  intros Hat. unfold mpv_set_option, deref. rewrite Hat.
  cbn [mbind outcome_bind]. split; [|split].
  - intros ->. unfold mpv_set_property, deref. by rewrite Hat.
  - intros -> Hf. by destruct (Z.eqb_spec format MPV_FORMAT_STRING).
  - intros -> ->. cbn [negb Z.eqb MPV_FORMAT_STRING Pos.eqb].
    destruct (m_config_set_option0 (engine m) nm d) as [err st].
    cbn [fst snd].
    destruct ((err =? M_OPT_MISSING_PARAM) || (err =? M_OPT_INVALID)
              || (err =? M_OPT_OUT_OF_RANGE));
      [eexists; split; [reflexivity|]; split; [auto | done]|].
    destruct (err =? M_OPT_UNKNOWN);
      [eexists; split; [reflexivity|]; split; [auto | done]|].
    destruct (Z.leb_spec 0 err);
      eexists; (split; [reflexivity|]); (split; [auto | done]).
Qed.

(** ** The log tap *)

Lemma find_log_level_spec lvl n fuel :
  (find_log_level lvl n fuel = -1 /\
   forall k, (n <= k < n + fuel)%nat -> mp_log_levels k <> Some lvl) \/
  (exists k, (n <= k < n + fuel)%nat /\ mp_log_levels k = Some lvl /\
             find_log_level lvl n fuel = Z.of_nat k).
Proof.
  revert n. induction fuel as [|fuel IH]; intros n; cbn.
  - left. split; [done|]. intros k Hk. lia.
  - destruct (mp_log_levels n) as [l|] eqn:Hn.
    + destruct (String.eqb_spec lvl l) as [->|Hne].
      * right. exists n. split; [lia|]. done.
      * destruct (IH (S n)) as [[-> Hno]|(k & Hk & Hl & ->)].
        -- left. split; [done|]. intros k Hk.
           destruct (decide (k = n)) as [->|]; [|apply Hno; lia].
           rewrite Hn. congruence.
        -- right. exists k. split; [lia | done].
    + destruct (IH (S n)) as [[-> Hno]|(k & Hk & Hl & ->)].
      * left. split; [done|]. intros k Hk.
        destruct (decide (k = n)) as [->|]; [|apply Hno; lia].
        by rewrite Hn.
      * right. exists k. split; [lia | done].
Qed.

Lemma set_messages_same b l h :
  messages h = b -> messages_level h = l -> set_messages b l h = h.
Proof. intros <- <-. by destruct h. Qed.

(** X23.  [mpv_request_log_messages] refuses a level that is neither "no" nor
    one of the names of [mp_log_levels], leaving the handle as it was.
    Otherwise it returns 0, the tap is open afterwards exactly when the
    level is one of those names, and asking for the same level again
    changes nothing (so the messages waiting in the tap are kept). *)
Theorem log_messages_request h lvl :
  (is_Some (messages h) -> 0 <= messages_level h) ->
  let named := exists k, (k <= MSGL_MAX)%nat /\ mp_log_levels k = Some lvl in
  (~ named -> lvl <> "no" ->
     mpv_request_log_messages h lvl = (MPV_ERROR_INVALID_PARAMETER, h)) /\
  (named \/ lvl = "no" ->
     exists h', mpv_request_log_messages h lvl = (0, h') /\
       (is_Some (messages h') <-> named) /\
       (is_Some (messages h') -> 0 <= messages_level h') /\
       mpv_request_log_messages h' lvl = (0, h')).
Proof.
  intros Hok named.
  assert (forall x : mpv_handle,
            (is_Some (messages x) -> 0 <= messages_level x) ->
            named \/ lvl = "no" ->
            exists h', mpv_request_log_messages x lvl = (0, h') /\
              (is_Some (messages h') <-> named) /\
              (is_Some (messages h') -> 0 <= messages_level h') /\
              messages_level h' = find_log_level lvl 0 (S MSGL_MAX))
    as Hrun.
  { intros x Hx Hv. unfold mpv_request_log_messages.
    destruct (find_log_level_spec lvl 0 (S MSGL_MAX))
      as [[Hl Hno]|(k & Hk & Hlk & Hl)]; rewrite Hl.
    - assert (~ named) as Hnn
        by (intros (k & Hk & Hlk); apply (Hno k); [lia | done]).
      destruct Hv as [Hv | ->]; [done|]. cbn [Z.ltb Z.compare andb].
      rewrite String.eqb_refl. cbn [negb].
      destruct (messages x) as [buf|] eqn:Hm.
      + assert (0 <= messages_level x) as Hlx by (apply Hx; eauto).
        destruct (Z.eqb_spec (messages_level x) (-1)); [lia|]. cbn.
        eexists. split; [reflexivity|]. cbn.
        split; [split; [by intros [? ?] | done]|].
        split; [by intros [? ?] | done].
      + cbn. eexists. split; [reflexivity|]. cbn.
        split; [split; [by intros [? ?] | done]|].
        split; [by intros [? ?] | done].
    - assert (named) as Hn by (exists k; split; [lia | done]).
      destruct (Z.ltb_spec (Z.of_nat k) 0); [lia|]. cbn [andb].
      destruct (Z.leb_spec 0 (Z.of_nat k)); [|lia].
      destruct (messages x) as [buf|] eqn:Hm.
      + destruct (Z.eqb_spec (messages_level x) (Z.of_nat k)) as [Heq|];
          cbn; (eexists; split; [reflexivity|]); cbn; rewrite ?Hm.
        * split; [split; [done | eauto]|]. split; [lia | done].
        * split; [split; [done | eauto]|]. split; [lia | done].
      + cbn [messages_level set_messages messages].
        destruct (Z.eqb_spec (-1) (Z.of_nat k)); [lia|]. cbn [negb].
        eexists. split; [reflexivity|]. cbn.
        split; [split; [done | eauto]|]. split; [lia | done]. }
  split.
  - intros Hnn Hno. unfold mpv_request_log_messages.
    destruct (find_log_level_spec lvl 0 (S MSGL_MAX))
      as [[-> _]|(k & Hk & Hlk & _)].
    + cbn [Z.ltb Z.compare andb].
      by destruct (String.eqb_spec lvl "no").
    + exfalso. apply Hnn. exists k. split; [lia | done].
  - intros Hv. destruct (Hrun h Hok Hv) as (h' & Hr & Hiff & Hlev & Hl).
    exists h'. split; [done|]. split; [done|]. split; [done|].
    (* the second call finds the level it asks for already set *)
    unfold mpv_request_log_messages. rewrite <- Hl.
    assert ((messages_level h' <? 0) && negb (String.eqb lvl "no") = false)
      as ->.
    { destruct Hv as [(k & Hk & Hlk) | ->];
        [|by rewrite String.eqb_refl, andb_false_r].
      destruct (find_log_level_spec lvl 0 (S MSGL_MAX))
        as [[_ Hno]|(k' & _ & _ & Hk')].
      - exfalso. apply (Hno k); [lia | done].
      - rewrite Hl, Hk'. by destruct (Z.ltb_spec (Z.of_nat k') 0); [lia|]. }
    destruct (messages h') as [buf|] eqn:Hm.
    + by rewrite Z.eqb_refl.
    + assert (messages_level h' = -1) as Hm1.
      { destruct (find_log_level_spec lvl 0 (S MSGL_MAX))
          as [[Hm1 _]|(k & Hk & Hlk & _)]; [by rewrite Hl|].
        assert (is_Some (@None mp_log_buffer)) as [? Hs]
          by (apply Hiff; exists k; split; [lia | done]).
        done. }
      rewrite (set_messages_same None (-1) h') by done.
      by rewrite Z.eqb_refl.
Qed.

(** ** An event for one client *)

Lemma handle_at_store_other cs ctx h' q :
  q <> ctx -> handle_at (store_at cs ctx h') q = handle_at cs q.
Proof.
  intros Hq. induction cs as [|[p h0] cs IH]; cbn; [done|].
  destruct (Nat.eqb_spec p ctx) as [->|]; cbn.
  - by destruct (Nat.eqb_spec ctx q); [congruence|].
  - by destruct (Nat.eqb p q).
Qed.

(** X24.  [mp_client_send_event] has four outcomes.  No client of that name: -1,
    data freed.  The client has the kind turned off: 0, and the data is
    neither freed nor queued.  The client has no free slot: -1, the data
    again neither freed nor queued.  Otherwise: 0, with the record, data
    included, at the end of the client's ring.  No other client is touched
    in any case. *)
Theorem send_event_to_client m nm event d :
  let record := mk_event 0 event 0 d in
  (find_client (clients m) nm = None ->
     mp_client_send_event m nm event d = Done (-1, talloc_free d m)) /\
  (forall ctx h,
     find_client (clients m) nm = Some ctx ->
     handle_at (clients m) ctx = Some h ->
     0 <= reserved_events h ->
     exists r h',
       mp_client_send_event m nm event d = Done (r, store m ctx h') /\
       freed (store m ctx h') = freed m /\
       (forall q, q <> ctx ->
          handle_at (clients (store m ctx h')) q = handle_at (clients m) q) /\
       handle_at (clients (store m ctx h')) ctx = Some h' /\
       ((mask_has (event_mask h) event = false /\ r = 0 /\ h' = h) \/
        (mask_has (event_mask h) event = true /\
         mp_ring_available (events h) / esize <= reserved_events h /\
         r = -1 /\ events h' = events h) \/
        (mask_has (event_mask h) event = true /\
         reserved_events h < mp_ring_available (events h) / esize /\
         r = 0 /\
         ring_buf (events h') = ring_buf (events h) ++ [record]))).
Proof.
  intros record. subst record. unfold mp_client_send_event. split.
  - by intros ->.
  - intros ctx h -> Hat H0. unfold deref. rewrite Hat.
    cbn [mbind outcome_bind].
    destruct (mask_has (event_mask h) event) eqn:Hm.
    + destruct (Z_lt_le_dec (reserved_events h)
                  (mp_ring_available (events h) / esize)) as [Hlt|Hle].
      * rewrite (send_event_written h (mk_event 0 event 0 d) Hm H0 Hlt).
        eexists _, _. split; [reflexivity|]. split; [done|].
        split; [intros q Hq; by apply handle_at_store_other|].
        split; [by eapply handle_at_store|].
        right; right. repeat split; try done.
        by destruct (wakeup_client_fields (ring_push (mk_event 0 event 0 d) h))
          as (_ & _ & _ & _ & _ & _ & -> & _).
      * rewrite (send_event_dropped h (mk_event 0 event 0 d) Hm Hle).
        eexists _, _. split; [reflexivity|]. split; [done|].
        split; [intros q Hq; by apply handle_at_store_other|].
        split; [by eapply handle_at_store|].
        right; left. repeat split; try done.
        by destruct (choke_warn_fields h) as (_ & _ & _ & -> & _).
    + rewrite (send_event_masked h (mk_event 0 event 0 d) Hm).
      eexists _, _. split; [reflexivity|]. split; [done|].
      split; [intros q Hq; by apply handle_at_store_other|].
      split; [by eapply handle_at_store|]. by left.
Qed.

(** ** A choked client recovers *)

Lemma wait_event_head h e rest timeout :
  ring_buf (events h) = e :: rest ->
  exists h', mpv_wait_event [] h timeout = Done (Some (e, h')) /\
    ring_buf (events h') = rest /\
    ring_size (events h') = ring_size (events h) /\
    reserved_events h' = reserved_events h /\
    event_mask h' = event_mask h /\
    choke_warning h' = choke_warning h /\
    choke_lines (effects h') = choke_lines (effects h).
Proof.
  intros Hbuf. unfold mpv_wait_event.
  rewrite (wait_loop_break [] (wait_enter h) timeout _
             (wait_turn_ring (wait_enter h) _ e rest Hbuf)).
  eexists. split; [reflexivity|]. cbn.
  rewrite choke_lines_app, choke_lines_freed. repeat split; lia.
Qed.

(** X25.  Dropping events does not shut a client out.  When [send_event] has had
    to drop an event for a client whose reservations are covered, then as
    soon as the client has taken one event from its ring the next event is
    written again, and no second warning is logged. *)
Theorem choked_client_recovers h e timeout :
  slots_ok h -> 0 <= reserved_events h ->
  mask_has (event_mask h) (event_id e) = true ->
  mp_ring_available (events h) / esize <= reserved_events h ->
  ring_buf (events h) <> [] ->
  exists h1 e0 h2 h3,
    send_event h e = Done (-1, h1) /\
    mpv_wait_event [] h1 timeout = Done (Some (e0, h2)) /\
    send_event h2 e = Done (0, h3) /\
    ring_buf (events h) = e0 :: removelast (ring_buf (events h3)) /\
    last (ring_buf (events h3)) = Some e /\
    choke_lines (effects h3) = choke_lines (effects h1).
Proof.
  intros Hok H0 Hm Hle Hne. pose proof esize_pos as Hp.
  destruct (ring_buf (events h)) as [|e0 rest] eqn:Hbuf; [done|].
  destruct (choke_warn_fields h)
    as (_ & _ & Hm1 & Hev1 & _ & Hr1 & Hcw & _ & _).
  destruct (wait_event_head (choke_warn h) e0 rest timeout)
    as (h2 & Hw & Hbuf2 & Hsz2 & Hr2 & Hm2 & Hcw2 & Hcl2);
    [by rewrite Hev1|].
  assert (mp_ring_available (events h2) =
            mp_ring_available (events h) + esize) as Hav2.
  { unfold mp_ring_available, mp_ring_buffered.
    rewrite Hbuf2, Hsz2, Hev1, Hbuf. cbn [length]. lia. }
  assert (send_event h2 e = Done (0, wakeup_client (ring_push e h2)))
    as Hs2.
  { apply send_event_written.
    - by rewrite Hm2, Hm1.
    - rewrite Hr2, Hr1. done.
    - rewrite Hr2, Hr1, Hav2.
      destruct (div_esize_step (mp_ring_available (events h))) as [_ ->].
      unfold slots_ok in Hok. lia. }
  exists (choke_warn h), e0, h2, (wakeup_client (ring_push e h2)).
  split; [by apply send_event_dropped|]. split; [done|]. split; [done|].
  destruct (wakeup_client_fields (ring_push e h2))
    as (_ & _ & _ & _ & _ & _ & -> & _ & _ & _ & _ & -> & _).
  cbn. rewrite Hbuf2, removelast_last, last_snoc. by repeat split.
Qed.

(** ** Reading a property *)

(** X26.  [mpv_get_property] on an initialized engine refuses a format that is
    neither [MPV_FORMAT_STRING] nor [MPV_FORMAT_OSD_STRING] with
    [MPV_ERROR_INVALID_PARAMETER], reading nothing.  With one of the two it
    reads the property once, as a raw string or as an OSD string; the value
    read reaches the caller when a result pointer was given. *)
Theorem get_property_result m ctx h nm format d :
  handle_at (clients m) ctx = Some h ->
  initialized m = true -> dispatch m = [] ->
  0 <= M_PROPERTY_GET_STRING E -> 0 <= M_PROPERTY_PRINT E ->
  mpv_get_property m ctx nm format d =
    if (format =? MPV_FORMAT_STRING) || (format =? MPV_FORMAT_OSD_STRING)
    then
      let action :=
        if format =? MPV_FORMAT_STRING then M_PROPERTY_GET_STRING E
        else M_PROPERTY_PRINT E in
      let r := mp_property_do E nm action None true (engine m) in
      Done (translate_property_error r.1.1,
            if d then r.1.2 else None,
            set_engine r.2 m)
    else Done (MPV_ERROR_INVALID_PARAMETER, None, m).
Proof.
  intros Hat Hi Hd Hg Hpr. unfold mpv_get_property, deref.
  rewrite Hat, Hi. cbn [mbind outcome_bind negb].
  unfold run_locked. rewrite (queue_process_empty _ Hd).
  cbn [mbind outcome_bind]. unfold getproperty_fn, property_format_to_cmd.
  cbn [gp_format gp_name gp_data gp_reply_ctx].
  destruct (Z.eqb_spec format MPV_FORMAT_STRING); cbn [orb].
  - destruct (Z.ltb_spec (M_PROPERTY_GET_STRING E) 0); [lia|].
    destruct (mp_property_do E nm (M_PROPERTY_GET_STRING E) None true
                (engine m)) as [[err out] st].
    cbn. by destruct d.
  - destruct (Z.eqb_spec format MPV_FORMAT_OSD_STRING).
    + destruct (Z.ltb_spec (M_PROPERTY_PRINT E) 0); [lia|].
      destruct (mp_property_do E nm (M_PROPERTY_PRINT E) None true
                  (engine m)) as [[err out] st].
      cbn. by destruct d.
    + cbn. by destruct d.
Qed.

End Client.

Arguments initialized {E} m.
Arguments engine {E} m.
Arguments clients {E} m.
Arguments next_client {E} m.
Arguments dispatch {E} m.
Arguments freed {E} m.
Arguments talloc_free {E} p m.

(** * Scenarios

    The model run on [Sample]: the inputs at which the properties above are
    exercised, and the runs that show where the code leaves its
    documentation. *)

Module Scenario.

Definition esz : positive := Sample.sizeof_event.
Definition levels : nat -> option string := Sample.mp_log_levels.
Definition eng : collaborators := Sample.idle_engine.

(** A client just created under the name "main". *)
Definition fresh : mpv_handle := new_handle esz "main".

(** An initialized engine with no client yet, and with "main" registered. *)
Definition engine0 : MPContext eng := mk_mpctx eng true tt [] 0%nat [] [].
Definition engine1 : MPContext eng := (mp_new_client esz eng engine0 "main").2.

(** The same before [mpv_initialize]. *)
Definition idle1 : MPContext eng :=
  (mp_new_client esz eng (mk_mpctx eng false tt [] 0%nat [] []) "main").2.

Definition ten_seconds : Q := inject_Z 10.
Definition no_wait : Q := inject_Z 0.

Definition ok_event : mpv_event_data := mk_event 0 MPV_EVENT_OK 0 NULL.
Definition pause_event : mpv_event_data :=
  mk_event 0 MPV_EVENT_PAUSE 0 (engine_data 4096).

(** A client with all its 1000 slots reserved for replies. *)
Definition reserved_out : mpv_handle := set_reserved_events 1000 fresh.

(** The same after its first dropped event. *)
Definition choked : mpv_handle := choke_warn reserved_out.

(** A client that has a record buffered, the shutdown flag set and a wakeup
    queued, all at once. *)
Definition busy : mpv_handle :=
  set_queued_wakeup true
    (set_shutdown true (set_events (mk_ring 24000 [pause_event]) fresh)).

(** A client that turned OK events off, then made a request that was
    answered. *)
Definition ok_off : mpv_handle := (mpv_request_event fresh MPV_EVENT_OK 0).2.
Definition ok_off_asked : mpv_handle := (reserve_reply ok_off).2.
Definition ok_off_answered : mpv_handle :=
  wakeup_client
    (ring_push ok_event
       (set_reserved_events (reserved_events ok_off_asked - 1) ok_off_asked)).

(** A client that turned SHUTDOWN events off, on an engine shutting down. *)
Definition shutdown_off : mpv_handle :=
  set_shutdown true (mpv_request_event fresh MPV_EVENT_SHUTDOWN 0).2.

(** The same after a wait. *)
Definition busy_served : mpv_handle :=
  set_queued_wakeup false
    (set_cur_event pause_event [engine_data 4096]
       (set_events (mk_ring 24000 []) busy)).

(** Three clients: "A" as created, "B" with all its slots reserved, "C"
    with PAUSE events turned off. *)
Definition trio : MPContext eng :=
  mk_mpctx eng true tt
    [ (0%nat, new_handle esz "A");
      (1%nat, set_reserved_events 1000 (new_handle esz "B"));
      (2%nat, (mpv_request_event (new_handle esz "C") MPV_EVENT_PAUSE 0).2) ]
    3%nat [] [].

End Scenario.

Import Scenario.

Lemma reservation_safety_witness :
  reserved_events fresh < max_events fresh /\
  (reserve_reply fresh).1 = 1 /\
  reserved_events (reserve_reply fresh).2 = 1 /\
  reserve_reply reserved_out = (-1, reserved_out) /\
  send_reply esz fresh 1 ok_event = AssertFail.
Proof.
  destruct (reservation_safety esz levels Sample.MSGL_MAX)
    as (_ & _ & Hnext & Hfull & Hassert & _).
  split; [vm_compute; reflexivity|].
  destruct (Hnext fresh) as (H1 & _ & H3);
    [vm_compute; split; [congruence | reflexivity]
    | vm_compute; reflexivity |].
  split; [exact H1|]. split; [exact H3|].
  split.
  - apply Hfull. vm_compute. congruence.
  - apply Hassert. vm_compute. congruence.
Defined.

Lemma send_event_cases_witness :
  send_event esz fresh (mk_event 0 MPV_EVENT_TICK 0 NULL) = Done (0, fresh) /\
  (exists h', send_event esz fresh pause_event = Done (0, h') /\
     ring_buf (events h') = ring_buf (events fresh) ++ [pause_event] /\
     signals (effects h') = S (signals (effects fresh)) /\
     choke_lines (effects h') = choke_lines (effects fresh)) /\
  (exists h', send_event esz reserved_out pause_event = Done (-1, h') /\
     events h' = events reserved_out /\
     signals (effects h') = signals (effects reserved_out) /\
     choke_warning h' = true /\
     choke_lines (effects h') = 1%nat) /\
  (exists h', send_event esz choked pause_event = Done (-1, h') /\
     events h' = events choked /\
     signals (effects h') = signals (effects choked) /\
     choke_warning h' = true /\
     choke_lines (effects h') = 1%nat).
Proof.
  destruct (send_event_cases esz levels Sample.MSGL_MAX)
    as (Hmask & Hwrite & Hdrop & _).
  split; [apply Hmask; vm_compute; reflexivity|].
  split; [apply Hwrite; vm_compute; congruence|].
  split; apply Hdrop; vm_compute; congruence.
Defined.

Lemma wait_event_priority_witness :
  (exists h', mpv_wait_event esz levels [] busy ten_seconds =
     Done (Some (pause_event, h'))) /\
  mpv_wait_event esz levels [] fresh ten_seconds = Done None /\
  mpv_wait_event esz levels [mpv_wakeup] fresh ten_seconds =
    Done (Some (zero_event,
      set_queued_wakeup false (mpv_wakeup (wait_enter fresh)))).
Proof.
  destruct (wait_event_priority esz levels [] busy ten_seconds)
    as (Hring & _).
  destruct (wait_event_priority esz levels [] fresh ten_seconds)
    as (_ & _ & _ & _ & Hsleep & _).
  destruct (wait_event_priority esz levels [mpv_wakeup] fresh ten_seconds)
    as (_ & _ & _ & _ & Hsleep' & _).
  split; [eexists; apply (Hring pause_event []); reflexivity|].
  destruct Hsleep as [Hnone _];
    [reflexivity | reflexivity | left; reflexivity | reflexivity
    | reflexivity |].
  split; [exact Hnone|].
  destruct Hsleep' as [_ Hnext];
    [reflexivity | reflexivity | left; reflexivity | reflexivity
    | reflexivity |].
  rewrite Hnext. vm_compute. reflexivity.
Defined.

Lemma wait_event_clears_wakeup_witness :
  mpv_wait_event esz levels [] busy ten_seconds =
    Done (Some (pause_event, busy_served)) /\
  queued_wakeup busy = true /\
  queued_wakeup busy_served = false /\
  pause_event = cur_event busy_served.
Proof.
  assert (mpv_wait_event esz levels [] busy ten_seconds =
            Done (Some (pause_event, busy_served))) as Hw
    by (vm_compute; reflexivity).
  split; [exact Hw|]. split; [reflexivity|].
  exact (wait_event_clears_wakeup esz levels [] busy ten_seconds
           pause_event busy_served Hw).
Defined.

Lemma mask_gate_send_event_witness :
  gate_inv MPV_EVENT_SHUTDOWN shutdown_off /\
  (exists ev h',
     mpv_wait_event esz levels [] shutdown_off no_wait =
       Done (Some (ev, h')) /\
     event_id ev = MPV_EVENT_SHUTDOWN) /\
  (MPV_EVENT_SHUTDOWN = MPV_EVENT_SHUTDOWN \/
   MPV_EVENT_SHUTDOWN = MPV_EVENT_LOG_MESSAGE \/
   MPV_EVENT_SHUTDOWN = MPV_EVENT_NONE).
Proof.
  assert (gate_inv MPV_EVENT_SHUTDOWN shutdown_off) as Hg
    by (split; [vm_compute; reflexivity | apply Forall_nil_2]).
  split; [exact Hg|].
  split; [eexists _, _; split; vm_compute; reflexivity|].
  destruct (mask_gate_send_event esz levels MPV_EVENT_SHUTDOWN) as [_ Hw].
  eapply (Hw [] shutdown_off no_wait);
    [apply Forall_nil_2 | exact Hg | vm_compute; reflexivity
    | vm_compute; reflexivity].
Defined.

(** C5, as worded, fails: a client that has turned OK events off still gets
    the OK reply to its request (its mask bit for OK is 0 all along). *)
Lemma mask_gate_claim_fails :
  ~ mask_gate_claim esz levels Sample.MSGL_MAX.
Proof.
  intros Hclaim.
  assert (reachable esz levels Sample.MSGL_MAX "main" ok_off_answered)
    as Hreach.
  { unfold reachable.
    eapply rtc_l; [apply (step_request_event _ _ _ _ MPV_EVENT_OK 0)|].
    eapply rtc_l; [apply step_reserve_reply|].
    eapply rtc_l; [|apply rtc_refl].
    apply (step_send_reply _ _ _ _ 1 ok_event).
    vm_compute. reflexivity. }
  eapply (Hclaim MPV_EVENT_OK "main" ok_off_answered [] no_wait);
    [exact Hreach | vm_compute; reflexivity | vm_compute; reflexivity
    | vm_compute; reflexivity].
Qed.

Lemma submission_errors_witness :
  handle_at (clients idle1) 0%nat = Some fresh /\
  initialized idle1 = false /\
  mpv_command_async eng idle1 0 ["loadfile"; "x"] = Done (-7, idle1) /\
  mpv_get_property esz eng idle1 0 "volume" MPV_FORMAT_STRING true =
    Done (-7, None, idle1) /\
  initialized engine1 = true /\
  mpv_set_property_async eng engine1 0 "volume" MPV_FORMAT_OSD_STRING
    (Some "50") = Done (-2, engine1).
Proof.
  destruct (submission_errors esz eng idle1 0 fresh eq_refl)
    as (Hidle & _).
  destruct (Hidle eq_refl) as (_ & _ & Hca & _ & _ & Hgp & _).
  destruct (submission_errors esz eng engine1 0 fresh eq_refl)
    as (_ & Hfmt & _).
  destruct (Hfmt eq_refl "volume" MPV_FORMAT_OSD_STRING (Some "50"))
    as [_ Hspa]; [vm_compute; congruence|].
  split; [reflexivity|]. split; [reflexivity|].
  split; [apply Hca|]. split; [apply Hgp|].
  split; [reflexivity | exact Hspa].
Defined.

Lemma new_client_names_witness :
  client_names (clients engine1) = ["main"] /\
  mp_new_client esz eng engine1 "main" =
    (Some 1%nat, register esz eng "main2" engine1) /\
  client_names (clients (register esz eng "main2" engine1)) =
    ["main"; "main2"] /\
  mp_new_client esz eng engine1 "other" =
    (Some 1%nat, register esz eng "other" engine1).
Proof.
  destruct (new_client_names esz levels Sample.MSGL_MAX eng engine1 "main")
    as (_ & Hsuffix & _ & Hreg & _).
  destruct (new_client_names esz levels Sample.MSGL_MAX eng engine1 "other") as (Hfree & _).
  split; [reflexivity|].
  split.
  - apply (Hsuffix 2%nat).
    + vm_compute. apply list_elem_of_here.
    + lia.
    + intros k Hk. lia.
    + vm_compute. intros H. apply list_elem_of_singleton in H. discriminate H.
  - split; [apply (Hreg "main2")|].
    apply Hfree. vm_compute. intros H.
    apply list_elem_of_singleton in H. discriminate H.
Defined.

Lemma event_data_freed_once_witness :
  (exists m', mp_client_broadcast_event esz eng trio MPV_EVENT_PAUSE
                (engine_data 4096) = Done m' /\
     freed m' = freed trio ++ [engine_data 4096] /\
     client_frees (clients m') = client_frees (clients trio)) /\
  mp_client_broadcast_event esz eng engine0 MPV_EVENT_PAUSE
    (engine_data 4096) = Done (talloc_free (engine_data 4096) engine0) /\
  mp_client_send_event esz eng trio "nobody" MPV_EVENT_PAUSE
    (engine_data 4096) = Done (-1, talloc_free (engine_data 4096) trio) /\
  (exists r m', mp_client_send_event esz eng trio "B" MPV_EVENT_PAUSE
                  (engine_data 4096) = Done (r, m') /\
     freed m' = freed trio).
Proof.
  destruct (event_data_freed_once esz eng trio MPV_EVENT_PAUSE
              (engine_data 4096)) as (Hb & Htot & _ & Hnone & Hsome).
  destruct (event_data_freed_once esz eng engine0 MPV_EVENT_PAUSE
              (engine_data 4096)) as (_ & _ & Hzero & _).
  split.
  - destruct Htot as [m' Hm'].
    { vm_compute. repeat constructor; congruence. }
    exists m'. split; [exact Hm'|]. exact (Hb m' Hm').
  - split; [apply Hzero; reflexivity|].
    split; [apply (Hnone "nobody"); vm_compute; reflexivity|].
    eexists _, _. split; [vm_compute; reflexivity|].
    eapply (Hsome "B" 1%nat); vm_compute; reflexivity.
Defined.

(** C1 does not hold of the code.  An asynchronous command on an initialized
    engine gets the reply ID 1; once the engine has run it, the OK event
    that [mpv_wait_event] delivers to the client has [in_reply_to = 0], not
    1: [send_reply] never stores its [reply_id] argument in the event. *)
Theorem async_reply_loses_id :
  exists m1 m2 ev m3,
    mpv_command_async eng engine1 0 ["loadfile"; "x"] = Done (1, m1) /\
    mp_dispatch_queue_process esz eng m1 = Done m2 /\
    wait_event_on esz levels eng m2 0 [] ten_seconds =
      Done (Some (ev, m3)) /\
    event_id ev = MPV_EVENT_OK /\
    in_reply_to ev = 0.
Proof.
  eexists _, _, _, _.
  split; [vm_compute; reflexivity|].
  split; [vm_compute; reflexivity|].
  split; [vm_compute; reflexivity|].
  split; reflexivity.
Qed.

(** C8 does not hold of the code.  Two asynchronous requests of one client
    get the reply IDs 1 and 2, but the OK and PROPERTY events sent in reply
    to them both carry [in_reply_to = 0], the value meant for events that
    answer no request. *)
Theorem replies_carry_zero :
  exists m1 m2 m3 ev1 m4 ev2 m5,
    mpv_set_property_async eng engine1 0 "volume" MPV_FORMAT_STRING
      (Some "50") = Done (1, m1) /\
    mpv_get_property_async eng m1 0 "volume" MPV_FORMAT_STRING =
      Done (2, m2) /\
    mp_dispatch_queue_process esz eng m2 = Done m3 /\
    wait_event_on esz levels eng m3 0 [] ten_seconds =
      Done (Some (ev1, m4)) /\
    wait_event_on esz levels eng m4 0 [] ten_seconds =
      Done (Some (ev2, m5)) /\
    (event_id ev1 = MPV_EVENT_OK /\ in_reply_to ev1 = 0) /\
    (event_id ev2 = MPV_EVENT_PROPERTY /\ in_reply_to ev2 = 0).
Proof.
  eexists _, _, _, _, _, _, _.
  split; [vm_compute; reflexivity|].
  split; [vm_compute; reflexivity|].
  split; [vm_compute; reflexivity|].
  split; [vm_compute; reflexivity|].
  split; [vm_compute; reflexivity|].
  split; split; reflexivity.
Qed.

(** The reply-ID counter is a [uint64_t] read as an [int64_t]: the request
    after the [2^63 - 1]-th would get a negative number for its ID. *)
Example reserve_reply_wraps :
  (reserve_reply (set_alloc_reply_id (2 ^ 63 - 1) fresh)).1 = - 2 ^ 63.
Proof. vm_compute. reflexivity. Qed.

(** With a positive timeout and nothing arriving, a wake-up by the deadline
    leads back into the wait: the loop does not look at the deadline. *)
Example wait_past_deadline :
  mpv_wait_event esz levels [id; id; id] fresh ten_seconds = Done None.
Proof. vm_compute. reflexivity. Qed.

(** * Further scenarios *)

Module Runs.

(** A client with one record buffered and all the 999 slots that are left
    reserved for replies. *)
Definition tight : mpv_handle :=
  set_reserved_events 999 (set_events (mk_ring 24000 [pause_event]) fresh).

(** An option parser that knows the one option "volume", which takes a
    value, with sample codes for its errors. *)
Definition opt_unknown : Z := -1.
Definition opt_missing_param : Z := -2.
Definition opt_invalid : Z := -3.
Definition opt_out_of_range : Z := -4.

Definition set_volume (st : unit) (nm : string) (value : option string)
  : Z * unit :=
  if String.eqb nm "volume" then
    match value with
    | Some _ => (1, st)
    | None => (opt_missing_param, st)
    end
  else (opt_unknown, st).

End Runs.

Import Runs.

Local Ltac by_run :=
  first [ reflexivity
        | vm_compute; congruence
        | vm_compute; split; [congruence | reflexivity] ].

Lemma ring_never_overcommitted_witness :
  reachable esz levels Sample.MSGL_MAX "main" ok_off_asked /\
  ring_size (events ok_off_asked) = 1000 * esize esz /\
  0 <= mp_ring_available esz (events ok_off_asked) /\
  Z.of_nat (length (ring_buf (events ok_off_asked))) <=
    max_events ok_off_asked.
Proof.
  assert (reachable esz levels Sample.MSGL_MAX "main" ok_off_asked)
    as Hreach.
  { unfold reachable.
    eapply rtc_l; [apply (step_request_event _ _ _ _ MPV_EVENT_OK 0)|].
    eapply rtc_l; [apply step_reserve_reply|]. apply rtc_refl. }
  split; [exact Hreach|].
  exact (ring_never_overcommitted esz levels Sample.MSGL_MAX "main"
           ok_off_asked Hreach).
Defined.

Lemma reserved_slots_kept_witness :
  slots_ok esz ok_off_asked /\
  exists h', send_reply esz ok_off_asked 1 ok_event = Done h' /\
             slots_ok esz h'.
Proof.
  assert (slots_ok esz ok_off_asked) as Hok by (vm_compute; congruence).
  split; [exact Hok|].
  destruct (reserved_slots_kept esz levels ok_off_asked Hok)
    as (_ & Hrep & _ & Hrun).
  destruct (Hrun 1 ok_event) as [h' Hh']; [vm_compute; reflexivity|].
  exists h'. split; [exact Hh'|]. exact (Hrep 1 ok_event h' Hh').
Defined.

Lemma shutdown_is_final_witness :
  shutdown busy = true /\
  shutdown (reserve_reply busy).2 = true /\
  exists ev h'',
    mpv_wait_event esz levels [] (reserve_reply busy).2 ten_seconds =
      Done (Some (ev, h'')) /\
    shutdown h'' = true /\ ev = pause_event.
Proof.
  assert (rtc (handle_step esz levels Sample.MSGL_MAX) busy
            (reserve_reply busy).2) as Hrun
    by (eapply rtc_l; [apply step_reserve_reply | apply rtc_refl]).
  destruct (shutdown_is_final esz levels Sample.MSGL_MAX busy _ Hrun eq_refl)
    as [Hs Hw].
  split; [reflexivity|]. split; [exact Hs|].
  destruct (Hw [] ten_seconds) as (ev & h'' & Hev & Hs'' & Hhead & _).
  exists ev, h''. split; [exact Hev|]. split; [exact Hs''|].
  apply (Hhead pause_event []). reflexivity.
Defined.

Lemma wait_event_owns_data_witness :
  mpv_wait_event esz levels [] busy ten_seconds =
    Done (Some (pause_event, busy_served)) /\
  cur_event_children busy_served = [engine_data 4096] /\
  frees (effects (wait_enter busy_served)) =
    frees (effects busy_served) ++ [engine_data 4096].
Proof.
  assert (mpv_wait_event esz levels [] busy ten_seconds =
            Done (Some (pause_event, busy_served))) as Hw
    by (vm_compute; reflexivity).
  split; [exact Hw|].
  destruct (wait_event_owns_data esz levels [] busy ten_seconds pause_event
              busy_served (Forall_nil_2 _) Hw) as (_ & Hc & Hf).
  split; [exact Hc | exact Hf].
Defined.


Lemma new_client_found_witness :
  fresh_alloc eng engine0 /\
  exists u,
    mpv_client_name eng engine1 0 = Done u /\
    find_client (clients engine1) u = Some 0%nat /\
    handle_at (clients engine1) 0 = Some (new_handle esz u) /\
    mp_clients_num eng engine1 = S (mp_clients_num eng engine0) /\
    (forall q hq, handle_at (clients engine0) q = Some hq ->
                  handle_at (clients engine1) q = Some hq) /\
    fresh_alloc eng engine1.
Proof.
  assert (fresh_alloc eng engine0) as Hf by apply Forall_nil_2.
  split; [exact Hf|].
  exact (new_client_found esz eng engine0 "main" (Some 0%nat) engine1 Hf
           eq_refl).
Defined.

Lemma new_then_destroy_witness :
  exists m'',
    mpv_destroy eng engine1 0 = Done m'' /\
    clients m'' = clients engine0 /\
    freed m'' = freed engine0 /\
    mp_clients_num eng m'' = mp_clients_num eng engine0.
Proof.
  exact (new_then_destroy esz eng engine0 "main" 0%nat engine1
           (Forall_nil_2 _) eq_refl).
Defined.

Lemma broadcast_per_client_witness :
  exists m',
    mp_client_broadcast_event esz eng trio MPV_EVENT_PAUSE
      (engine_data 4096) = Done m' /\
    mp_clients_num eng m' = 3%nat /\
    engine_data 4096 ∈ freed m'.
Proof.
  assert (exists m', mp_client_broadcast_event esz eng trio MPV_EVENT_PAUSE
                       (engine_data 4096) = Done m') as [m' Hm']
    by (eexists; vm_compute; reflexivity).
  exists m'. split; [exact Hm'|].
  destruct (broadcast_per_client esz eng trio MPV_EVENT_PAUSE
              (engine_data 4096) m' Hm') as (_ & Hn & Hf).
  split; [rewrite Hn; reflexivity | exact Hf].
Defined.

Lemma async_buffer_full_witness :
  mpv_command_async eng trio 1 ["loadfile"; "x"] =
    Done (MPV_ERROR_EVENT_BUFFER_FULL, trio) /\
  mpv_set_property_async eng trio 1 "volume" MPV_FORMAT_STRING (Some "50") =
    Done (MPV_ERROR_EVENT_BUFFER_FULL, trio) /\
  mpv_get_property_async eng trio 1 "volume" MPV_FORMAT_STRING =
    Done (MPV_ERROR_EVENT_BUFFER_FULL, trio).
Proof.
  destruct (async_buffer_full eng trio 1
              (set_reserved_events 1000 (new_handle esz "B"))
              eq_refl eq_refl) as (Hc & Hs & Hg); [vm_compute; congruence|].
  split; [apply (Hc ["loadfile"; "x"] ["loadfile"; "x"]); reflexivity|].
  split; [apply Hs | apply Hg].
Defined.



Lemma command_result_witness :
  mpv_command esz eng engine1 0 ["loadfile"; "x"] =
    Done (0, set_engine eng tt engine1) /\
  mpv_command esz eng engine1 0 [] =
    Done (MPV_ERROR_INVALID_PARAMETER, engine1).
Proof.
  split.
  - exact (command_result esz eng engine1 0 fresh ["loadfile"; "x"]
             eq_refl eq_refl eq_refl).
  - exact (command_result esz eng engine1 0 fresh [] eq_refl eq_refl eq_refl).
Defined.

Lemma set_option_result_witness :
  mpv_set_option esz eng set_volume opt_missing_param opt_invalid
    opt_out_of_range opt_unknown idle1 0 "volume" MPV_FORMAT_OSD_STRING
    (Some "50") = Done (MPV_ERROR_INVALID_PARAMETER, idle1) /\
  (exists r,
     mpv_set_option esz eng set_volume opt_missing_param opt_invalid
       opt_out_of_range opt_unknown idle1 0 "volume" MPV_FORMAT_STRING
       (Some "50") = Done (r, set_engine eng tt idle1) /\
     (r = 0 \/ r = MPV_ERROR_NOT_FOUND \/ r = MPV_ERROR_INVALID_PARAMETER) /\
     (r = 0 -> 0 <= 1)) /\
  mpv_set_option esz eng set_volume opt_missing_param opt_invalid
    opt_out_of_range opt_unknown engine1 0 "volume" MPV_FORMAT_STRING
    (Some "50") =
  mpv_set_property esz eng engine1 0 "volume" MPV_FORMAT_STRING (Some "50").
Proof.
  destruct (set_option_result esz eng set_volume opt_missing_param
              opt_invalid opt_out_of_range opt_unknown idle1 0 fresh
              "volume" MPV_FORMAT_OSD_STRING (Some "50") eq_refl)
    as (_ & Hfmt & _).
  destruct (set_option_result esz eng set_volume opt_missing_param
              opt_invalid opt_out_of_range opt_unknown idle1 0 fresh
              "volume" MPV_FORMAT_STRING (Some "50") eq_refl)
    as (_ & _ & Hset).
  destruct (set_option_result esz eng set_volume opt_missing_param
              opt_invalid opt_out_of_range opt_unknown engine1 0 fresh
              "volume" MPV_FORMAT_STRING (Some "50") eq_refl)
    as (Hinit & _).
  split; [apply Hfmt; [reflexivity | vm_compute; congruence]|].
  split; [exact (Hset eq_refl eq_refl) | exact (Hinit eq_refl)].
Defined.

Lemma log_messages_request_witness :
  (exists h',
     mpv_request_log_messages levels Sample.MSGL_MAX fresh "warn" = (0, h') /\
     is_Some (messages h') /\
     mpv_request_log_messages levels Sample.MSGL_MAX h' "warn" = (0, h')) /\
  mpv_request_log_messages levels Sample.MSGL_MAX fresh "loud" =
    (MPV_ERROR_INVALID_PARAMETER, fresh).
Proof.
  assert (is_Some (messages fresh) -> 0 <= messages_level fresh) as Hn
    by (intros [x Hx]; discriminate Hx).
  assert (exists k : nat, (k <= Sample.MSGL_MAX)%nat /\ levels k = Some "warn")
    as Hwarn by (exists 2%nat; split; [vm_compute; lia | reflexivity]).
  destruct (log_messages_request levels Sample.MSGL_MAX fresh "warn" Hn)
    as [_ Hyes].
  destruct (log_messages_request levels Sample.MSGL_MAX fresh "loud" Hn)
    as [Hno _].
  split.
  - destruct (Hyes (or_introl Hwarn)) as (h' & Hr & Hiff & _ & Hagain).
    exists h'. split; [exact Hr|].
    split; [apply Hiff; exact Hwarn | exact Hagain].
  - apply Hno; [|congruence].
    intros (k & Hk & Hl).
    do 8 (destruct k as [|k]; [vm_compute in Hl; congruence|]).
    vm_compute in Hk. lia.
Defined.

Lemma choked_client_recovers_witness :
  exists h1 e0 h2 h3,
    send_event esz tight pause_event = Done (-1, h1) /\
    mpv_wait_event esz levels [] h1 ten_seconds = Done (Some (e0, h2)) /\
    send_event esz h2 pause_event = Done (0, h3) /\
    ring_buf (events tight) = e0 :: removelast (ring_buf (events h3)) /\
    last (ring_buf (events h3)) = Some pause_event /\
    choke_lines (effects h3) = choke_lines (effects h1).
Proof.
  apply (choked_client_recovers esz levels tight pause_event ten_seconds);
    by_run.
Defined.

Lemma get_property_result_witness :
  mpv_get_property esz eng engine1 0 "volume" MPV_FORMAT_STRING true =
    Done (0, Some "value", set_engine eng tt engine1) /\
  mpv_get_property esz eng engine1 0 "volume" MPV_FORMAT_NONE true =
    Done (MPV_ERROR_INVALID_PARAMETER, None, engine1).
Proof.
  split.
  - exact (get_property_result esz eng engine1 0 fresh "volume"
             MPV_FORMAT_STRING true eq_refl eq_refl eq_refl
             ltac:(vm_compute; congruence) ltac:(vm_compute; congruence)).
  - exact (get_property_result esz eng engine1 0 fresh "volume"
             MPV_FORMAT_NONE true eq_refl eq_refl eq_refl
             ltac:(vm_compute; congruence) ltac:(vm_compute; congruence)).
Defined.
